(** * Surface-scattering engine (utils/physics): embedding and properties

    The four exported functions of the physics module are embedded here:
    [generateSurfaceProfile], [generateSurfaceProfile3D],
    [calculateScattering] and [calculateEnergyConcentration].

    Number model.  A TypeScript [number] is read as a mathematical real:
    [+ - * /] are the field operations of [R], [Math.PI] is [PI],
    [Math.cos], [Math.tan], [Math.exp] are [cos], [tan], [exp],
    [Math.abs] is [Rabs] and [Math.max] is [Rmax].  Rounding error,
    overflow, NaN and signed zero are outside this model; a quotient whose
    divisor is zero has the value Rocq gives it (zero), and the places
    where the source can divide by zero are named where they occur.
    Where a property turns on the number a library call returns rather
    than on the mathematical value, as for the cosine at the two ends of
    the sweep, that number is an argument of the statement
    ([beckmannFrom]); properties that fix the number of samples are
    stated for whole-number steps, for which the additions of the loop
    are exact.

    [Math.random()] is an explicit stream [random : nat -> R] together
    with the number of draws made so far, threaded through the
    generators. *)

From Stdlib Require Import Reals Lra Lia List ZArith String Bool.
From Stdlib Require Import Permutation Sorted.
Import ListNotations.
Open Scope R_scope.

(** ** JavaScript primitives used by the module *)

(** [Math.pow(b, e)].  An integral exponent is a repeated product (or its
    inverse); otherwise the result is [exp (e * ln b)] for a positive
    base.  A zero base with a positive fractional exponent gives 0; a
    negative base with a fractional exponent is NaN in the source and
    never happens on the sweep (see [cos_sweep_nonneg]). *)
Definition Math_pow (b e : R) : R :=
  if Req_dec_T e (IZR (Zfloor e)) then powerRZ b (Zfloor e)
  else if Rlt_dec 0 b then Rpower b e
  else 0.

(** [Number(v.toFixed(4))]: [toFixed] works on the absolute value, takes
    the integer [n] with [n / 10^4] closest to it, the larger one on a
    tie, and prints [n / 10^4] with the sign in front; from [10^21] on it
    prints the number itself. *)
Definition toFixed4 (v : R) : R :=
  if Rle_dec (10 ^ 21) (Rabs v) then v
  else
    let n := Zfloor (Rabs v * 10 ^ 4 + / 2) in
    if Rlt_dec v 0 then - (IZR n / 10 ^ 4) else IZR n / 10 ^ 4.

(** [arr.sort(compare)]: the sort of an array is stable, an element [u]
    stays in front of [w] unless [compare(u, w) > 0].  Insertion from the
    right end computes that arrangement. *)
Fixpoint Array_insert {A : Type} (compare : A -> A -> R) (u : A) (l : list A)
  : list A :=
  match l with
  | [] => [u]
  | w :: l' =>
      if Rlt_dec 0 (compare u w) then w :: Array_insert compare u l'
      else u :: w :: l'
  end.

Fixpoint Array_sort {A : Type} (compare : A -> A -> R) (l : list A) : list A :=
  match l with
  | [] => []
  | u :: l' => Array_insert compare u (Array_sort compare l')
  end.

(** ** generateSurfaceProfile *)

Module Point.
Record t : Type := mk { x : Z; y : R }.
End Point.

Section Generators.

(** The value returned by the [k]-th call of [Math.random()]. *)
Variable random : nat -> R.

(** The [for] loop of [generateSurfaceProfile]: [n] iterations are
    left, [i] is the loop index, [prev] the running value and [k] the
    number of draws made so far. *)
Fixpoint profileLoop (rq alpha : R) (n : nat) (i : Z) (prev : R) (k : nat)
  : list Point.t * nat :=
  match n with
  | O => ([], k)
  | S n' =>
      let noise := (random k - 0.5) * 4 * rq in
      let val := prev * (1 - alpha) + noise * alpha in
      let (points, k') := profileLoop rq alpha n' (i + 1)%Z val (S k) in
      (Point.mk i val :: points, k')
  end.

(** [length] is an integer (200 when the caller leaves it out);
    [i < length] holds for [Z.to_nat length] values of [i] starting at
    0.  [k] is the draw counter on entry, the result carries the counter
    on exit. *)
Definition generateSurfaceProfile (k : nat) (ra : R) (length : Z)
  : list Point.t * nat :=
  let rq := ra * 1.25 in
  let prev := 0 in
  let alpha := 0.15 in
  profileLoop rq alpha (Z.to_nat length) 0%Z prev k.

(** ** generateSurfaceProfile3D *)

(** Inner loop of the fill: one row of [n] more cells. *)
Fixpoint fillRow (rq : R) (n : nat) (k : nat) : list R * nat :=
  match n with
  | O => ([], k)
  | S n' =>
      let height := (random k - 0.5) * 2 * rq in
      let (row, k') := fillRow rq n' (S k) in
      (height :: row, k')
  end.

(** Outer loop of the fill: [n] more rows of [size] cells. *)
Fixpoint fillGrid (rq : R) (size : nat) (n : nat) (k : nat)
  : list (list R) * nat :=
  match n with
  | O => ([], k)
  | S n' =>
      let (row, k1) := fillRow rq size k in
      let (rows, k2) := fillGrid rq size n' k1 in
      (row :: rows, k2)
  end.

End Generators.

(** [grid[ni][nj]]; the source reads it only under the bounds test. *)
Definition cell (grid : list (list R)) (ni nj : Z) : R :=
  nth (Z.to_nat nj) (nth (Z.to_nat ni) grid []) 0.

(** The offsets [-1, 0, 1] of the two innermost loops. *)
Definition offsets : list Z := [-1; 0; 1]%Z.

(** The body of the innermost loop, on the pair [(sum, count)]. *)
Definition accumulate (grid : list (list R)) (size i j di dj : Z)
  (acc : R * nat) : R * nat :=
  let ni := (i + di)%Z in
  let nj := (j + dj)%Z in
  if ((ni >=? 0) && (ni <? size) && (nj >=? 0) && (nj <? size))%Z
  then (fst acc + cell grid ni nj, S (snd acc))
  else acc.

(** The two loops over [di] and [dj] for the cell [(i, j)]. *)
Definition window (grid : list (list R)) (size i j : Z) : R * nat :=
  fold_left
    (fun acc di =>
       fold_left (fun acc' dj => accumulate grid size i j di dj acc')
         offsets acc)
    offsets (0, O).

Definition smoothCell (grid : list (list R)) (size i j : Z) : R :=
  let (sum, count) := window grid size i j in
  sum / INR count.

(** The indices [0 .. size-1] of a [for] loop from 0 while [< size]. *)
Definition indices (size : Z) : list Z :=
  map Z.of_nat (seq 0 (Z.to_nat size)).

Definition smooth (grid : list (list R)) (size : Z) : list (list R) :=
  map (fun i => map (fun j => smoothCell grid size i j) (indices size))
    (indices size).

(** [size] is an integer (64 when the caller leaves it out). *)
Definition generateSurfaceProfile3D (random : nat -> R) (k : nat) (ra : R)
  (size : Z) : list (list R) * nat :=
  let rq := ra * 1.25 in
  let (grid, k') :=
    fillGrid random rq (Z.to_nat size) (Z.to_nat size) k in
  (smooth grid size, k').

(** ** calculateScattering *)

Record ScatteringData : Type :=
  mkScatteringData { angle : R; intensity : R }.

Open Scope string_scope.

(** The regime parameter [g] of the first lines of the function. *)
Definition gParameter (ra lambda thetaInc : R) : R :=
  let sigma := ra * 1.25 in
  let thetaRad := (thetaInc * PI) / 180 in
  let safeLambda := Rmax 0.0001 lambda in
  Math_pow ((4 * PI * sigma * cos thetaRad) / safeLambda) 2.

(** The resolution of [activeModel]. *)
Definition resolveModel (modelType : string) (g : R) : string :=
  if modelType =? "Auto" then
    if Rlt_dec g 0.01 then "Rayleigh-Rice"
    else if Rgt_dec g 15 then "Beckmann"
    else "Harvey-Shack"
  else modelType.

(** The three branches of the dispatch inside the sweep, each the value
    of [intensity] before the clamp. *)
Definition rayleighRice (ra lambda thetaInc step g a : R) : R :=
  let aRad := (a * PI) / 180 in
  let diff := Rabs (a - thetaInc) in
  let peakWidth :=
    Rmax (step * 2) (0.2 * (lambda / Rmax 0.00001 (ra * 1000))) in
  let specular := exp (- g) * exp (- Math_pow (diff / peakWidth) 2) in
  let diffuse := (1 - exp (- g)) * Math_pow (cos aRad) 4 in
  specular + diffuse * 0.05.

Definition beckmann (ra thetaInc slopeFactor a : R) : R :=
  let aRad := (a * PI) / 180 in
  let thetaRad := (thetaInc * PI) / 180 in
  let m := Rmax 0.005 ((ra / 5) * slopeFactor) in
  let cosA := cos aRad in
  if Rgt_dec cosA 0 then
    let exponent := - Math_pow (tan (aRad - thetaRad)) 2 / (2 * m * m) in
    (1 / (PI * m * m * Math_pow cosA 4)) * exp exponent
  else 0.

(** The Beckmann branch as the source evaluates it, read as a function
    of the two numbers it obtains from [Math.cos(aRad)] and from
    [Math.tan(aRad - thetaRad)]. *)
Definition beckmannFrom (ra slopeFactor cosA tangent : R) : R :=
  let m := Rmax 0.005 ((ra / 5) * slopeFactor) in
  if Rgt_dec cosA 0 then
    let exponent := - Math_pow tangent 2 / (2 * m * m) in
    (1 / (PI * m * m * Math_pow cosA 4)) * exp exponent
  else 0.

(** [slopeFactor = 0] makes the source divide by zero here. *)
Definition harveyShack (thetaInc slopeFactor g a : R) : R :=
  let aRad := (a * PI) / 180 in
  let diff := Rabs (a - thetaInc) in
  let spec := exp (- g) * exp (- Math_pow (diff / (1.5 * slopeFactor)) 2) in
  let diffu := (1 - exp (- g)) * Math_pow (cos aRad) 1.5 in
  spec + diffu * 0.3.

(** The value of [intensity] at the end of the [if] chain. *)
Definition modelIntensity (activeModel : string)
  (ra lambda thetaInc step slopeFactor g a : R) : R :=
  if activeModel =? "Rayleigh-Rice" then
    rayleighRice ra lambda thetaInc step g a
  else if activeModel =? "Beckmann" then
    beckmann ra thetaInc slopeFactor a
  else
    harveyShack thetaInc slopeFactor g a.

(** The element pushed for the angle [a]. *)
Definition sample (activeModel : string)
  (ra lambda thetaInc step slopeFactor g a : R) : ScatteringData :=
  mkScatteringData (toFixed4 a)
    (Rmax 0 (modelIntensity activeModel ra lambda thetaInc step slopeFactor g a)).

(** [for (let a = ...; a <= 90; a += step) data.push(body a)].  The loop
    is not structural; [fuel] bounds the number of times the body runs
    and [None] means the bound was too small. *)
Fixpoint sweep (fuel : nat) (body : R -> ScatteringData) (step a : R)
  : option (list ScatteringData) :=
  if Rle_dec a 90 then
    match fuel with
    | O => None
    | S fuel' =>
        match sweep fuel' body step (a + step) with
        | Some data => Some (body a :: data)
        | None => None
        end
    end
  else Some [].

(** [data.reduce((max, item) => item.intensity > max ? item.intensity : max, 0)] *)
Definition rawMax (data : list ScatteringData) : R :=
  fold_left
    (fun max item => if Rgt_dec (intensity item) max then intensity item else max)
    data 0.

(** [rawMaxIntensity || 1] *)
Definition divisor (rawMaxIntensity : R) : R :=
  if Req_dec_T rawMaxIntensity 0 then 1 else rawMaxIntensity.

(** The final [data.map]. *)
Definition normalize (reflectivity : R) (data : list ScatteringData)
  : list ScatteringData :=
  let rawMaxIntensity := rawMax data in
  map (fun d =>
         mkScatteringData (angle d)
           ((intensity d / divisor rawMaxIntensity) * reflectivity))
    data.

(** The array [data] as it stands after the sweep. *)
Definition rawData (fuel : nat) (ra lambda thetaInc : R) (modelType : string)
  (step slopeFactor : R) : option (list ScatteringData) :=
  let g := gParameter ra lambda thetaInc in
  let activeModel := resolveModel modelType g in
  sweep fuel (sample activeModel ra lambda thetaInc step slopeFactor g)
    step (-90).

(** The caller that leaves out the last four arguments passes
    ['Auto'], 1, 1.0 and 1.0. *)
Definition calculateScattering (fuel : nat) (ra lambda thetaInc : R)
  (modelType : string) (step reflectivity slopeFactor : R)
  : option (list ScatteringData) :=
  match rawData fuel ra lambda thetaInc modelType step slopeFactor with
  | Some data => Some (normalize reflectivity data)
  | None => None
  end.

(** ** calculateEnergyConcentration *)

Record EnergyConcentrationStats : Type :=
  mkStats { e50 : R; e90 : R; e99 : R }.

(** The three counters of the accumulation loop. *)
Record Counts : Type :=
  mkCounts { e50Count : nat; e90Count : nat; e99Count : nat }.

(** [!count && ratio >= threshold ? i + 1 : count] *)
Definition crossing (count : nat) (ratio threshold : R) (i : nat) : nat :=
  if (count =? 0)%nat then
    if Rge_dec ratio threshold then (i + 1)%nat else count
  else count.

(** The accumulation loop from index [i] on, [rest] being
    [sorted[i ..]]; it stops at the [break]. *)
Fixpoint energyLoop (total : R) (rest : list ScatteringData) (i : nat)
  (currentSum : R) (c : Counts) : Counts :=
  match rest with
  | [] => c
  | d :: rest' =>
      let currentSum' := currentSum + intensity d in
      let ratio := currentSum' / total in
      let c' :=
        mkCounts (crossing (e50Count c) ratio 0.50 i)
                 (crossing (e90Count c) ratio 0.90 i)
                 (crossing (e99Count c) ratio 0.99 i) in
      if (e99Count c' =? 0)%nat
      then energyLoop total rest' (S i) currentSum' c'
      else c'
  end.

(** [data.reduce((acc, d) => acc + d.intensity, 0)] *)
Definition totalIntensity (data : list ScatteringData) : R :=
  fold_left (fun acc d => acc + intensity d) data 0.

(** [[...data].sort((a, b) => b.intensity - a.intensity)] *)
Definition sortDescending (data : list ScatteringData) : list ScatteringData :=
  Array_sort (fun a b => intensity b - intensity a) data.

(** The counters at the end of the loop. *)
Definition energyCounts (data : list ScatteringData) : Counts :=
  energyLoop (totalIntensity data) (sortDescending data) 0 0 (mkCounts 0 0 0).

Definition calculateEnergyConcentration (data : list ScatteringData)
  (step : R) : EnergyConcentrationStats :=
  let total := totalIntensity data in
  if Req_dec_T total 0 then mkStats 0 0 0
  else
    let c := energyCounts data in
    mkStats (toFixed4 (INR (e50Count c) * step))
            (toFixed4 (INR (e90Count c) * step))
            (toFixed4 (INR (e99Count c) * step)).

(** ** The application component (App) *)

Module SurfaceParameters.
Record t : Type :=
  mk { material : string;
       ra : R;
       wavelength : R;
       incidentAngle : R;
       modelType : string;
       reflectivity : R;
       slopeFactor : R }.
End SurfaceParameters.

Definition SIMULATION_STEP : R := 0.001.
Definition raMinUm : R := 0.000001.
Definition raMaxUm : R := 3.2.

(** The call of [calculateScattering] in [updateVisualization], whose
    result becomes [fullScattering]. *)
Definition updateScattering (fuel : nat) (params : SurfaceParameters.t)
  : option (list ScatteringData) :=
  calculateScattering fuel
    (SurfaceParameters.ra params)
    (SurfaceParameters.wavelength params)
    (SurfaceParameters.incidentAngle params)
    (SurfaceParameters.modelType params)
    SIMULATION_STEP
    (SurfaceParameters.reflectivity params)
    (SurfaceParameters.slopeFactor params).

(** [updateVisualization]: the three values handed to the state
    setters, with the draw counter after the two generators.  The
    profile is asked for with the default length, the grid with size
    50. *)
Definition updateVisualization (random : nat -> R) (k : nat) (fuel : nat)
  (params : SurfaceParameters.t)
  : list Point.t * list (list R) * option (list ScatteringData) * nat :=
  let (profile, k1) :=
    generateSurfaceProfile random k (SurfaceParameters.ra params) 200 in
  let (profile3D, k2) :=
    generateSurfaceProfile3D random k1 (SurfaceParameters.ra params) 50 in
  (profile, profile3D, updateScattering fuel params, k2).

(** [arr.filter((_, i) => keep(i))], [i] being the index of the head of
    [l] in the array. *)
Fixpoint Array_filter_index {A : Type} (keep : nat -> bool) (i : nat)
  (l : list A) : list A :=
  match l with
  | [] => []
  | u :: l' =>
      if keep i then u :: Array_filter_index keep (S i) l'
      else Array_filter_index keep (S i) l'
  end.

(** [chartData]: [fullScattering.length] is a natural number, so
    [Math.floor] of its quotient by 600 is the integer quotient. *)
Definition chartData (fullScattering : list ScatteringData)
  : list ScatteringData :=
  let sampleFactor := Nat.max 1 (List.length fullScattering / 600) in
  Array_filter_index (fun i => (i mod sampleFactor =? 0)%nat) 0
    fullScattering.

(** [handleRaInputChange]: [valNm] is the result of [parseFloat],
    [None] standing for NaN; the new state replaces [ra] only. *)
Definition handleRaInputChange (valNm : option R)
  (prev : SurfaceParameters.t) : SurfaceParameters.t :=
  match valNm with
  | None => prev
  | Some valNm =>
      let valUm := valNm / 1000 in
      SurfaceParameters.mk
        (SurfaceParameters.material prev)
        (Rmin (Rmax valUm raMinUm) raMaxUm)
        (SurfaceParameters.wavelength prev)
        (SurfaceParameters.incidentAngle prev)
        (SurfaceParameters.modelType prev)
        (SurfaceParameters.reflectivity prev)
        (SurfaceParameters.slopeFactor prev)
  end.

(** ** The mesh component (Surface3D) *)

(** [const scale = ra < 0.001 ? 1000000 : ra < 0.1 ? 10000 : 50] *)
Definition heightScale (ra : R) : R :=
  if Rlt_dec ra 0.001 then 1000000
  else if Rlt_dec ra 0.1 then 10000
  else 50.

(** [position.setY(idx, y)] on the Y components of the vertex buffer,
    one per vertex: a write into a typed array, which does nothing
    outside its length. *)
Fixpoint setY (idx : nat) (y : R) (position : list R) : list R :=
  match position, idx with
  | [], _ => []
  | _ :: rest, O => y :: rest
  | v :: rest, S idx' => v :: setY idx' y rest
  end.

(** The inner loop of the height update, for the row [i]. *)
Definition updateRow (heightMap : list (list R)) (size : nat) (scale : R)
  (i : nat) (position : list R) : list R :=
  fold_left
    (fun pos j =>
       let idx := (i * size + j)%nat in
       setY idx (nth j (nth i heightMap []) 0 * scale) pos)
    (seq 0 size) position.

(** The loops of the second effect of the component; nothing is done
    for an empty height map. *)
Definition updateHeights (heightMap : list (list R)) (ra : R)
  (position : list R) : list R :=
  let size := List.length heightMap in
  if (size =? 0)%nat then position
  else
    let scale := heightScale ra in
    fold_left (fun pos i => updateRow heightMap size scale i pos)
      (seq 0 size) position.

(** ** Notions used to state the properties *)

(** Number of samples of a sweep of positive step: the angles
    [-90 + k * step] that do not exceed 90. *)
Definition sampleCount (step : R) : nat :=
  S (Z.to_nat (Zfloor (180 / step))).

(** The [k]-th angle visited by the loop variable. *)
Definition sweepAngle (step : R) (k : nat) : R := -90 + INR k * step.

(** The test of the innermost loop, on the cell [p = (ni, nj)]. *)
Definition inBounds (size : Z) (p : Z * Z) : bool :=
  ((fst p >=? 0) && (fst p <? size) && (snd p >=? 0) && (snd p <? size))%Z.

(** The cell [(i, j)] with the cells around it, in the order of the two
    innermost loops, and those of them that exist in the grid. *)
Definition block (i j : Z) : list (Z * Z) :=
  map (fun d => ((i + fst d)%Z, (j + snd d)%Z)) (list_prod offsets offsets).

Definition neighbourhood (size i j : Z) : list (Z * Z) :=
  filter (inBounds size) (block i j).

(** Sum of the raw heights of a list of cells. *)
Definition cellSum (grid : list (list R)) (cells : list (Z * Z)) : R :=
  fold_right (fun p s => cell grid (fst p) (snd p) + s) 0 cells.

(** Position of a cell of a [size] x [size] grid. *)
Definition onBorder (size i : Z) : Prop := i = 0%Z \/ i = (size - 1)%Z.

Definition isCorner (size i j : Z) : Prop :=
  onBorder size i /\ onBorder size j.

Definition isEdge (size i j : Z) : Prop :=
  (onBorder size i /\ 0 < j < size - 1)%Z
  \/ ((0 < i < size - 1)%Z /\ onBorder size j).

Definition isInterior (size i j : Z) : Prop :=
  (0 < i < size - 1 /\ 0 < j < size - 1)%Z.

(** The running sum after the sample of index [i] of [sorted]. *)
Definition runningSum (sorted : list ScatteringData) (i : nat) : R :=
  totalIntensity (firstn (S i) sorted).

(** [count] is [i + 1] for the first index [i] of [sorted] at which the
    running sum divided by [total] reaches [threshold]. *)
Definition isFirstCrossing (total : R) (sorted : list ScatteringData)
  (threshold : R) (count : nat) : Prop :=
  exists i,
    count = S i /\ (i < List.length sorted)%nat
    /\ runningSum sorted i / total >= threshold
    /\ forall j, (j < i)%nat -> runningSum sorted j / total < threshold.

(** The search for that index as a scan from index [i], with
    [currentSum] the sum of the samples before it; 0 when the threshold
    is not reached. *)
Fixpoint firstCrossing (total threshold : R) (rest : list ScatteringData)
  (i : nat) (currentSum : R) : nat :=
  match rest with
  | [] => O
  | d :: rest' =>
      let currentSum' := currentSum + intensity d in
      if Rge_dec (currentSum' / total) threshold then S i
      else firstCrossing total threshold rest' (S i) currentSum'
  end.

(** Descending order of intensity. *)
Definition descending (a b : ScatteringData) : Prop :=
  intensity a >= intensity b.

(** * Properties *)

Open Scope R_scope.

(** ** The primitives *)

Lemma Math_pow_2 (b : R) : Math_pow b 2 = b * b.
Proof.
  unfold Math_pow. rewrite (ZfloorZ 2).
  destruct (Req_dec_T 2 2) as [_ | Hne]; [| contradiction Hne; reflexivity].
  simpl. ring.
Qed.

Lemma Math_pow_4 (b : R) : Math_pow b 4 = b * b * b * b.
Proof.
  unfold Math_pow. rewrite (ZfloorZ 4).
  destruct (Req_dec_T 4 4) as [_ | Hne]; [| contradiction Hne; reflexivity].
  simpl. ring.
Qed.

Lemma Zfloor_1_5 : Zfloor 1.5 = 1%Z.
Proof. apply Zfloor_eq. lra. Qed.

Lemma Math_pow_1_5_pos (b : R) : 0 < b -> Math_pow b 1.5 = Rpower b 1.5.
Proof.
  intro Hb. unfold Math_pow. rewrite Zfloor_1_5.
  destruct (Req_dec_T 1.5 1) as [He | _]; [lra |].
  destruct (Rlt_dec 0 b); [reflexivity | contradiction].
Qed.

Lemma Math_pow_1_5_zero (b : R) : b <= 0 -> Math_pow b 1.5 = 0.
Proof.
  intro Hb. unfold Math_pow. rewrite Zfloor_1_5.
  destruct (Req_dec_T 1.5 1) as [He | _]; [lra |].
  destruct (Rlt_dec 0 b); [lra | reflexivity].
Qed.

Lemma Math_pow_1_5_nonneg (b : R) : 0 <= Math_pow b 1.5.
Proof.
  destruct (Rlt_dec 0 b) as [Hb | Hb].
  - rewrite Math_pow_1_5_pos by assumption. unfold Rpower. left. apply exp_pos.
  - rewrite Math_pow_1_5_zero by lra. lra.
Qed.

(** [Math.pow(., 1.5)] is strictly increasing on the non-negative reals. *)
Lemma Math_pow_1_5_lt (b c : R) :
  0 <= b -> b < c -> Math_pow b 1.5 < Math_pow c 1.5.
Proof.
  intros Hb Hbc.
  rewrite (Math_pow_1_5_pos c) by lra.
  destruct Hb as [Hb | Hb].
  - rewrite Math_pow_1_5_pos by assumption.
    apply Rlt_Rpower_l; lra.
  - rewrite Math_pow_1_5_zero by lra. unfold Rpower. apply exp_pos.
Qed.

Lemma pow_10_4 : 10 ^ 4 = 10000.
Proof. simpl. lra. Qed.

Lemma pow_10_21 : 10 ^ 21 = 1000000000000000000000.
Proof. simpl. lra. Qed.

(** A value with at most four decimals is printed as it is. *)
Lemma toFixed4_exact (z : Z) : toFixed4 (IZR z / 10000) = IZR z / 10000.
Proof.
  unfold toFixed4.
  destruct (Rle_dec (10 ^ 21) (Rabs (IZR z / 10000))) as [_ | _];
    [reflexivity |].
  rewrite pow_10_4.
  destruct (Rlt_dec (IZR z / 10000) 0) as [Hneg | Hpos].
  - rewrite Rabs_left by assumption.
    replace (- (IZR z / 10000) * 10000 + / 2) with (/ 2 + IZR (- z))
      by (rewrite opp_IZR; field).
    rewrite Zfloor_addz.
    replace (Zfloor (/ 2)) with 0%Z by (symmetry; apply Zfloor_eq; lra).
    rewrite Z.add_0_l, opp_IZR. lra.
  - rewrite Rabs_right by lra.
    replace (IZR z / 10000 * 10000 + / 2) with (/ 2 + IZR z) by field.
    rewrite Zfloor_addz.
    replace (Zfloor (/ 2)) with 0%Z by (symmetry; apply Zfloor_eq; lra).
    rewrite Z.add_0_l. reflexivity.
Qed.

Lemma toFixed4_IZR (z : Z) : toFixed4 (IZR z) = IZR z.
Proof.
  replace (IZR z) with (IZR (z * 10000) / 10000)
    by (rewrite mult_IZR; field).
  apply toFixed4_exact.
Qed.

(** On the non-negative reals the rounding is non-negative and monotone. *)
Lemma toFixed4_nonneg (v : R) : 0 <= v -> 0 <= toFixed4 v.
Proof.
  intro Hv. unfold toFixed4.
  destruct (Rle_dec (10 ^ 21) (Rabs v)) as [_ | _]; [assumption |].
  destruct (Rlt_dec v 0) as [Hneg | _]; [lra |].
  rewrite Rabs_right by lra. rewrite pow_10_4.
  assert (Hn : (0 <= Zfloor (v * 10000 + / 2))%Z)
    by (apply Zfloor_lub; lra).
  apply IZR_le in Hn. lra.
Qed.

Lemma toFixed4_mono (v w : R) : 0 <= v -> v <= w -> toFixed4 v <= toFixed4 w.
Proof.
  intros Hv Hvw. unfold toFixed4.
  rewrite (Rabs_right v), (Rabs_right w) by lra.
  rewrite pow_10_4, pow_10_21.
  destruct (Rlt_dec v 0) as [Hneg | _]; [lra |].
  destruct (Rlt_dec w 0) as [Hneg | _]; [lra |].
  assert (Hfl : (Zfloor (v * 10000 + / 2) <= Zfloor (w * 10000 + / 2))%Z)
    by (apply Zfloor_le; lra).
  apply IZR_le in Hfl.
  pose proof (Zfloor_bound (v * 10000 + / 2)) as Bv.
  pose proof (Zfloor_bound (w * 10000 + / 2)) as Bw.
  destruct (Rle_dec 1000000000000000000000 v) as [Hbv | Hsv];
    destruct (Rle_dec 1000000000000000000000 w) as [Hbw | Hsw];
    try lra.
  assert (Hz : (Zfloor (v * 10000 + / 2) <= 10000000000000000000000000)%Z).
  { apply Z.lt_succ_r. apply lt_IZR.
    eapply Rle_lt_trans; [apply Bv |].
    rewrite succ_IZR. lra. }
  apply IZR_le in Hz. lra.
Qed.

(** ** The sweep *)

Lemma sweep_run (body : R -> ScatteringData) (step : R) (n : nat) :
  forall (fuel : nat) (a : R),
    (n <= fuel)%nat ->
    (forall k, (k < n)%nat -> a + INR k * step <= 90) ->
    ~ a + INR n * step <= 90 ->
    sweep fuel body step a
    = Some (map (fun k => body (a + INR k * step)) (seq 0 n)).
Proof.
  induction n as [| n IH]; intros fuel a Hfuel Hin Hout.
  - simpl in Hout. rewrite Rmult_0_l, Rplus_0_r in Hout.
    destruct fuel; simpl; destruct (Rle_dec a 90); try contradiction;
      reflexivity.
  - destruct fuel as [| fuel]; [lia |].
    assert (Ha : a <= 90).
    { specialize (Hin O (Nat.lt_0_succ n)). simpl in Hin. lra. }
    simpl sweep. destruct (Rle_dec a 90) as [_ | Hn]; [| contradiction].
    rewrite (IH fuel (a + step)).
    + cbn [seq map]. rewrite <- seq_shift, map_map.
      replace (a + INR 0 * step) with a by (simpl; ring).
      do 2 f_equal. apply map_ext. intro k.
      f_equal. rewrite S_INR. ring.
    + lia.
    + intros k Hk. specialize (Hin (S k) (proj1 (Nat.succ_lt_mono k n) Hk)).
      rewrite S_INR in Hin. lra.
    + intro H. apply Hout. rewrite S_INR. lra.
Qed.

(** With a step that is not positive the loop variable never passes 90:
    no bound on the iterations is enough. *)
Lemma sweep_diverges (body : R -> ScatteringData) (step : R) :
  step <= 0 ->
  forall (fuel : nat) (a : R), a <= 90 -> sweep fuel body step a = None.
Proof.
  intros Hstep fuel. induction fuel as [| fuel IH]; intros a Ha; simpl;
    destruct (Rle_dec a 90) as [_ | Hn]; try contradiction; try reflexivity.
  rewrite IH by lra. reflexivity.
Qed.

Lemma sampleCount_inside (step : R) (k : nat) :
  0 < step -> (k < sampleCount step)%nat -> sweepAngle step k <= 90.
Proof.
  intros Hstep Hk. unfold sampleCount in Hk. unfold sweepAngle.
  pose proof (Zfloor_bound (180 / step)) as [Hlo _].
  assert (Hq : 0 <= 180 / step).
  { apply Rlt_le, Rdiv_lt_0_compat; lra. }
  assert (Hz : (0 <= Zfloor (180 / step))%Z) by (apply Zfloor_lub; lra).
  assert (Hkz : (Z.of_nat k <= Zfloor (180 / step))%Z) by lia.
  apply IZR_le in Hkz. rewrite <- INR_IZR_INZ in Hkz.
  assert (Hks : INR k * step <= 180 / step * step).
  { apply Rmult_le_compat_r; lra. }
  replace (180 / step * step) with 180 in Hks by (field; lra).
  lra.
Qed.

Lemma sampleCount_outside (step : R) :
  0 < step -> ~ sweepAngle step (sampleCount step) <= 90.
Proof.
  intros Hstep. unfold sampleCount, sweepAngle.
  pose proof (Zfloor_bound (180 / step)) as [_ Hhi].
  assert (Hq : 0 <= 180 / step).
  { apply Rlt_le, Rdiv_lt_0_compat; lra. }
  assert (Hz : (0 <= Zfloor (180 / step))%Z) by (apply Zfloor_lub; lra).
  rewrite S_INR, INR_IZR_INZ, Z2Nat.id by assumption.
  assert (Hks : 180 / step * step < (IZR (Zfloor (180 / step)) + 1) * step).
  { apply Rmult_lt_compat_r; lra. }
  replace (180 / step * step) with 180 in Hks by (field; lra).
  lra.
Qed.


(** The sweep from -90 returns, and visits exactly the angles
    [sweepAngle step k] for [k < sampleCount step]. *)
Lemma sweep_from_minus_90 (body : R -> ScatteringData) (step : R) (fuel : nat) :
  0 < step -> (sampleCount step <= fuel)%nat ->
  sweep fuel body step (-90)
  = Some (map (fun k => body (sweepAngle step k)) (seq 0 (sampleCount step))).
Proof.
  intros Hstep Hfuel.
  apply (sweep_run body step (sampleCount step) fuel (-90) Hfuel).
  - intros k Hk. apply (sampleCount_inside step k Hstep Hk).
  - apply (sampleCount_outside step Hstep).
Qed.

(** The number of samples is the only bound that works. *)
Lemma sweep_length (body : R -> ScatteringData) (step : R) :
  forall (fuel : nat) (a : R) (data : list ScatteringData),
    sweep fuel body step a = Some data -> (List.length data <= fuel)%nat.
Proof.
  induction fuel as [| fuel IH]; intros a data; simpl;
    destruct (Rle_dec a 90) as [Ha | Ha]; try discriminate.
  - intro H. injection H as <-. simpl. lia.
  - destruct (sweep fuel body step (a + step)) as [data' |] eqn:E;
      [| discriminate].
    intro H. injection H as <-. simpl. apply IH in E. lia.
  - intro H. injection H as <-. simpl. lia.
Qed.

(** The rounding of angles and widths, away from the [10^21] switch. *)
Lemma toFixed4_small (v : R) :
  Rabs v < 10 ^ 21 ->
  toFixed4 v
  = if Rlt_dec v 0 then - (IZR (Zfloor (- v * 10000 + / 2)) / 10000)
    else IZR (Zfloor (v * 10000 + / 2)) / 10000.
Proof.
  intro Hv. unfold toFixed4.
  destruct (Rle_dec (10 ^ 21) (Rabs v)) as [Hbig | _]; [lra |].
  rewrite pow_10_4.
  destruct (Rlt_dec v 0) as [Hneg | Hpos].
  - rewrite Rabs_left by assumption. reflexivity.
  - rewrite Rabs_right by lra. reflexivity.
Qed.






(** ** What [calculateScattering] returns *)

Lemma rawData_returns (fuel : nat) (ra lambda thetaInc : R)
  (modelType : string) (step slopeFactor : R) :
  0 < step -> (sampleCount step <= fuel)%nat ->
  rawData fuel ra lambda thetaInc modelType step slopeFactor
  = Some (map (fun k =>
                 sample (resolveModel modelType (gParameter ra lambda thetaInc))
                   ra lambda thetaInc step slopeFactor
                   (gParameter ra lambda thetaInc) (sweepAngle step k))
            (seq 0 (sampleCount step))).
Proof.
  intros Hstep Hfuel. unfold rawData.
  apply sweep_from_minus_90; assumption.
Qed.

Lemma calculateScattering_returns (fuel : nat) (ra lambda thetaInc : R)
  (modelType : string) (step reflectivity slopeFactor : R) :
  0 < step -> (sampleCount step <= fuel)%nat ->
  exists raw,
    rawData fuel ra lambda thetaInc modelType step slopeFactor = Some raw
    /\ calculateScattering fuel ra lambda thetaInc modelType step
         reflectivity slopeFactor
       = Some (normalize reflectivity raw).
Proof.
  intros Hstep Hfuel. unfold calculateScattering.
  rewrite (rawData_returns fuel ra lambda thetaInc modelType step slopeFactor
             Hstep Hfuel).
  eexists. split; reflexivity.
Qed.

Lemma normalize_angles (reflectivity : R) (data : list ScatteringData) :
  map angle (normalize reflectivity data) = map angle data.
Proof.
  unfold normalize. rewrite map_map. apply map_ext. reflexivity.
Qed.

(** The angles of the returned distribution. *)
Lemma calculateScattering_angles (fuel : nat) (ra lambda thetaInc : R)
  (modelType : string) (step reflectivity slopeFactor : R) :
  0 < step -> (sampleCount step <= fuel)%nat ->
  exists data,
    calculateScattering fuel ra lambda thetaInc modelType step
      reflectivity slopeFactor = Some data
    /\ map angle data
       = map (fun k => toFixed4 (sweepAngle step k)) (seq 0 (sampleCount step)).
Proof.
  intros Hstep Hfuel. unfold calculateScattering.
  rewrite (rawData_returns fuel ra lambda thetaInc modelType step slopeFactor
             Hstep Hfuel).
  eexists. split; [reflexivity |].
  rewrite normalize_angles, map_map. apply map_ext. reflexivity.
Qed.

Lemma sampleCount_iff (step : R) (k : nat) :
  0 < step -> ((k < sampleCount step)%nat <-> sweepAngle step k <= 90).
Proof.
  intro Hstep. split; [apply sampleCount_inside; assumption |].
  intro Hk. destruct (Nat.lt_ge_cases k (sampleCount step)) as [Hlt | Hge];
    [assumption | exfalso].
  apply (sampleCount_outside step Hstep).
  unfold sweepAngle in *. apply le_INR in Hge.
  assert (INR (sampleCount step) * step <= INR k * step)
    by (apply Rmult_le_compat_r; lra).
  lra.
Qed.

Lemma sampleCount_1 : sampleCount 1 = 181%nat.
Proof.
  unfold sampleCount. replace (180 / 1) with (IZR 180) by lra.
  rewrite ZfloorZ. reflexivity.
Qed.

Lemma sweepAngle_1 (k : nat) : sweepAngle 1 k = IZR (Z.of_nat k - 90).
Proof.
  unfold sweepAngle. rewrite minus_IZR, <- INR_IZR_INZ. ring.
Qed.






(** The angle 90 need not be sampled: step 200 gives the single angle
    -90. *)
Lemma single_sample_at_step_200 :
  exists data,
    calculateScattering 1 0.8 0.5 0 "Auto" 200 0.9 1 = Some data
    /\ map angle data = [-90].
Proof.
  assert (Hcount : sampleCount 200 = 1%nat).
  { unfold sampleCount.
    replace (Zfloor (180 / 200)) with 0%Z
      by (symmetry; apply Zfloor_eq; lra).
    reflexivity. }
  destruct (calculateScattering_angles 1 0.8 0.5 0 "Auto" 200 0.9 1)
    as [data [Hcall Hangles]]; [lra | rewrite Hcount; apply Nat.le_refl |].
  exists data. split; [exact Hcall |].
  rewrite Hangles, Hcount. cbn [seq map]. unfold sweepAngle.
  replace (-90 + INR 0 * 200) with (IZR (-90)) by (simpl; lra).
  rewrite toFixed4_IZR. reflexivity.
Qed.

(** ** Normalization *)

Lemma rawMax_fold_ge (data : list ScatteringData) :
  forall m0,
    let M := fold_left
               (fun max item =>
                  if Rgt_dec (intensity item) max then intensity item else max)
               data m0 in
    m0 <= M /\ forall d, In d data -> intensity d <= M.
Proof.
  induction data as [| d0 data IH]; intros m0; simpl.
  - split; [lra | contradiction].
  - destruct (Rgt_dec (intensity d0) m0) as [Hgt | Hle].
    + destruct (IH (intensity d0)) as [H1 H2]. split; [lra |].
      intros d [<- | Hin]; [assumption | apply H2; assumption].
    + destruct (IH m0) as [H1 H2]. split; [lra |].
      intros d [<- | Hin]; [lra | apply H2; assumption].
Qed.

Lemma rawMax_fold_attained (data : list ScatteringData) :
  forall m0,
    let M := fold_left
               (fun max item =>
                  if Rgt_dec (intensity item) max then intensity item else max)
               data m0 in
    M = m0 \/ exists d, In d data /\ intensity d = M.
Proof.
  induction data as [| d0 data IH]; intros m0; simpl.
  - left. reflexivity.
  - destruct (Rgt_dec (intensity d0) m0) as [Hgt | Hle].
    + destruct (IH (intensity d0)) as [H | [d [Hin H]]].
      * right. exists d0. split; [left; reflexivity | symmetry; exact H].
      * right. exists d. split; [right; assumption | exact H].
    + destruct (IH m0) as [H | [d [Hin H]]].
      * left. exact H.
      * right. exists d. split; [right; assumption | exact H].
Qed.

Lemma rawMax_upper (data : list ScatteringData) (d : ScatteringData) :
  In d data -> intensity d <= rawMax data.
Proof. intro Hin. apply (rawMax_fold_ge data 0). assumption. Qed.

Lemma rawMax_nonneg (data : list ScatteringData) : 0 <= rawMax data.
Proof. apply (rawMax_fold_ge data 0). Qed.

(** On a non-empty array of non-negative intensities the reduction
    returns the intensity of one of the elements: their maximum. *)
Lemma rawMax_attained (data : list ScatteringData) :
  data <> [] -> (forall d, In d data -> 0 <= intensity d) ->
  exists d, In d data /\ intensity d = rawMax data.
Proof.
  intros Hne Hpos.
  destruct (rawMax_fold_attained data 0) as [H0 | H]; [| exact H].
  destruct data as [| d0 data]; [contradiction Hne; reflexivity |].
  exists d0. split; [left; reflexivity |].
  fold (rawMax (d0 :: data)) in H0.
  pose proof (rawMax_upper (d0 :: data) d0 (or_introl eq_refl)).
  pose proof (Hpos d0 (or_introl eq_refl)). lra.
Qed.

Lemma divisor_zero : divisor 0 = 1.
Proof.
  unfold divisor. destruct (Req_dec_T 0 0) as [_ | Hn];
    [reflexivity | contradiction Hn; reflexivity].
Qed.

Lemma divisor_nonzero (M : R) : M <> 0 -> divisor M = M.
Proof.
  intro HM. unfold divisor. destruct (Req_dec_T M 0); [contradiction |].
  reflexivity.
Qed.

Lemma sample_intensity_nonneg (activeModel : string)
  (ra lambda thetaInc step slopeFactor g a : R) :
  0 <= intensity (sample activeModel ra lambda thetaInc step slopeFactor g a).
Proof. simpl. apply Rmax_l. Qed.

Lemma rawData_nonneg (fuel : nat) (ra lambda thetaInc : R)
  (modelType : string) (step slopeFactor : R) (raw : list ScatteringData) :
  0 < step -> (sampleCount step <= fuel)%nat ->
  rawData fuel ra lambda thetaInc modelType step slopeFactor = Some raw ->
  raw <> [] /\ forall d, In d raw -> 0 <= intensity d.
Proof.
  intros Hstep Hfuel Hraw.
  rewrite rawData_returns in Hraw by assumption.
  apply (f_equal (fun o => match o with Some l => l | None => [] end)) in Hraw.
  subst raw. split.
  - unfold sampleCount. cbn [seq map]. discriminate.
  - intros d Hd. apply in_map_iff in Hd as [k [<- _]].
    apply sample_intensity_nonneg.
Qed.

(** C1: the returned intensities are the raw ones divided by
    [rawMaxIntensity || 1] and multiplied by [reflectivity], where the
    divisor is 1 when the raw maximum [M] is 0 and [M] otherwise, so
    that it is never 0.  When [M = 0] every returned intensity is 0;
    otherwise the samples where the raw intensity is [M] come out as
    [reflectivity] exactly, and for a reflectivity that is not negative
    no returned intensity is above it. *)
Theorem normalized_peak_is_reflectivity (fuel : nat) (ra lambda thetaInc : R)
  (modelType : string) (step reflectivity slopeFactor : R) :
  0 < step -> (sampleCount step <= fuel)%nat ->
  exists raw out,
    rawData fuel ra lambda thetaInc modelType step slopeFactor = Some raw
    /\ calculateScattering fuel ra lambda thetaInc modelType step
         reflectivity slopeFactor = Some out
    /\ (forall d, In d raw -> 0 <= intensity d <= rawMax raw)
    /\ (exists d, In d raw /\ intensity d = rawMax raw)
    /\ (rawMax raw <> 0 ->
        Forall2 (fun d o => angle o = angle d
                            /\ intensity o
                               = (intensity d / rawMax raw) * reflectivity)
          raw out)
    /\ (rawMax raw = 0 ->
        Forall2 (fun d o => angle o = angle d
                            /\ intensity o = (intensity d / 1) * reflectivity)
          raw out)
    /\ (rawMax raw = 0 -> forall o, In o out -> intensity o = 0)
    /\ (rawMax raw <> 0 ->
        (exists o, In o out /\ intensity o = reflectivity)
        /\ (0 <= reflectivity ->
            forall o, In o out -> intensity o <= reflectivity))
    /\ divisor 0 = 1
    /\ (forall M, M <> 0 -> divisor M = M)
    /\ divisor (rawMax raw) <> 0
    /\ Forall2 (fun d o => angle o = angle d
                           /\ intensity o
                              = (intensity d / divisor (rawMax raw))
                                * reflectivity)
         raw out.
Proof.
  intros Hstep Hfuel.
  destruct (calculateScattering_returns fuel ra lambda thetaInc modelType step
              reflectivity slopeFactor Hstep Hfuel) as [raw [Hraw Hcall]].
  destruct (rawData_nonneg fuel ra lambda thetaInc modelType step slopeFactor
              raw Hstep Hfuel Hraw) as [Hne Hpos].
  exists raw, (normalize reflectivity raw).
  split; [exact Hraw |]. split; [exact Hcall |].
  assert (Hrel : forall div,
             Forall2 (fun d o => angle o = angle d
                                 /\ intensity o
                                    = (intensity d / div) * reflectivity)
               raw (map (fun d => mkScatteringData (angle d)
                                    ((intensity d / div) * reflectivity)) raw)).
  { intro div. clear. induction raw as [| d raw IH]; simpl; constructor;
      [split; reflexivity | exact IH]. }
  split; [| split; [| split; [| split; [| split; [| split; [| split;
    [| split; [| split]]]]]]]].
  - intros d Hd. split; [apply Hpos; exact Hd | apply rawMax_upper; exact Hd].
  - apply rawMax_attained; assumption.
  - intro HM. unfold normalize. rewrite divisor_nonzero by exact HM.
    apply Hrel.
  - intro HM. unfold normalize. rewrite HM, divisor_zero. apply Hrel.
  - intros HM o Ho. unfold normalize in Ho.
    apply in_map_iff in Ho as [d [<- Hd]]. simpl.
    assert (intensity d = 0).
    { pose proof (Hpos d Hd). pose proof (rawMax_upper raw d Hd). lra. }
    rewrite H. unfold Rdiv. ring.
  - intro HM. split.
    + destruct (rawMax_attained raw Hne Hpos) as [d [Hd Hmax]].
      exists (mkScatteringData (angle d)
                ((intensity d / divisor (rawMax raw)) * reflectivity)).
      split.
      * unfold normalize. apply in_map_iff. exists d. split; [reflexivity | exact Hd].
      * simpl. rewrite divisor_nonzero, Hmax by exact HM. field. exact HM.
    + intros Hrefl o Ho. unfold normalize in Ho.
      apply in_map_iff in Ho as [d [<- Hd]]. simpl.
      rewrite divisor_nonzero by exact HM.
      pose proof (rawMax_nonneg raw) as HM0.
      assert (HMpos : 0 < rawMax raw) by lra.
      pose proof (Hpos d Hd) as Hd0.
      pose proof (rawMax_upper raw d Hd) as HdM.
      assert (Hq : intensity d / rawMax raw * rawMax raw = intensity d)
        by (field; exact HM).
      set (q := intensity d / rawMax raw) in *.
      assert (Hq1 : q <= 1).
      { destruct (Rle_dec q 1) as [H | H]; [exact H | exfalso; nra]. }
      assert (Hq0 : 0 <= q).
      { destruct (Rle_dec 0 q) as [H | H]; [exact H | exfalso; nra]. }
      nra.
  - apply divisor_zero.
  - apply divisor_nonzero.
  - unfold divisor. destruct (Req_dec_T (rawMax raw) 0); [lra | assumption].
  - unfold normalize. apply Hrel.
Qed.

(** ** Model resolution *)

Lemma gParameter_formula (ra lambda thetaInc : R) :
  gParameter ra lambda thetaInc
  = ((4 * PI * (1.25 * ra) * cos (thetaInc * PI / 180))
     / Rmax 0.0001 lambda) ^ 2.
Proof.
  unfold gParameter. cbv zeta. rewrite Math_pow_2.
  replace (ra * 1.25) with (1.25 * ra) by ring. simpl. ring.
Qed.

Lemma gParameter_normal_incidence (ra : R) :
  gParameter ra 0.5 0 = (10 * PI * ra) ^ 2.
Proof.
  rewrite gParameter_formula.
  replace (0 * PI / 180) with 0 by (unfold Rdiv; ring).
  rewrite cos_0, Rmax_right by lra. f_equal. lra.
Qed.

Lemma resolveModel_Auto (g : R) :
  (g < 0.01 -> resolveModel "Auto" g = "Rayleigh-Rice")
  /\ (g > 15 -> resolveModel "Auto" g = "Beckmann")
  /\ (0.01 <= g <= 15 -> resolveModel "Auto" g = "Harvey-Shack").
Proof.
  unfold resolveModel. simpl.
  destruct (Rlt_dec g 0.01); destruct (Rgt_dec g 15);
    repeat split; intros; try reflexivity; lra.
Qed.

Lemma resolveModel_requested (modelType : string) (g : R) :
  modelType <> "Auto" -> resolveModel modelType g = modelType.
Proof.
  intro Hm. unfold resolveModel.
  destruct (String.eqb_spec modelType "Auto"); [contradiction | reflexivity].
Qed.




(** ** The samples before normalization *)


(** On the sweep the cosine of the angle is never negative, and it is
    zero at the two ends only. *)
Lemma cos_sweep_nonneg (a : R) : -90 <= a <= 90 -> 0 <= cos (a * PI / 180).
Proof.
  intro Ha. pose proof PI_RGT_0. apply cos_ge_0; nra.
Qed.

(** ** The guard of the Beckmann branch *)

Lemma exp_nat (n : nat) : exp (INR n) = exp 1 ^ n.
Proof.
  induction n as [| n IH].
  - simpl. apply exp_0.
  - rewrite S_INR, exp_plus, IH. simpl. ring.
Qed.

Lemma exp_lower_bound (x : R) : - 20 <= x -> / 3 ^ 20 <= exp x.
Proof.
  intro Hx.
  assert (H20 : exp 20 <= 3 ^ 20).
  { replace 20 with (INR 20) at 1 by (rewrite INR_IZR_INZ; reflexivity).
    rewrite exp_nat. apply pow_incr. split; [left; apply exp_pos |].
    apply exp_le_3. }
  assert (Hle : exp (- x) <= exp 20).
  { destruct (Req_dec (- x) 20) as [-> | Hne]; [lra |].
    left. apply exp_increasing. lra. }
  replace x with (- - x) by ring. rewrite exp_Ropp.
  apply Rinv_le_contravar; [apply exp_pos | lra].
Qed.

Lemma beckmannFrom_lit (ra slopeFactor cosA tangent : R) :
  cosA > 0 ->
  let m := Rmax 0.005 ((ra / 5) * slopeFactor) in
  beckmannFrom ra slopeFactor cosA tangent
  = (1 / (PI * m ^ 2 * cosA ^ 4)) * exp (- tangent ^ 2 / (2 * m ^ 2)).
Proof.
  intros Hc m. unfold beckmannFrom. cbv zeta. fold m.
  destruct (Rgt_dec cosA 0) as [_ | Hn]; [| contradiction].
  rewrite Math_pow_2, Math_pow_4. f_equal.
  - f_equal. simpl. ring.
  - f_equal. f_equal; simpl; ring.
Qed.

Lemma beckmannFrom_pos (ra slopeFactor cosA tangent : R) :
  cosA > 0 -> 0 < beckmannFrom ra slopeFactor cosA tangent.
Proof.
  intro Hc. rewrite beckmannFrom_lit by exact Hc. cbv zeta.
  set (m := Rmax 0.005 (ra / 5 * slopeFactor)).
  assert (Hm : 0 < m).
  { unfold m. pose proof (Rmax_l 0.005 (ra / 5 * slopeFactor)). lra. }
  apply Rmult_lt_0_compat; [| apply exp_pos].
  apply Rdiv_lt_0_compat; [lra |].
  pose proof PI_RGT_0 as Hpi.
  apply Rmult_lt_0_compat; [apply Rmult_lt_0_compat |].
  - exact Hpi.
  - apply pow_lt. exact Hm.
  - apply pow_lt. exact Hc.
Qed.

(** C3, where the code departs from it: the guard of the Beckmann
    branch tests the number returned by [Math.cos(aRad)], and whenever
    that number is positive, however small, the formula is evaluated
    and the stored intensity is positive, not 0.  In IEEE arithmetic
    [Math.cos(90 * Math.PI / 180)] is 6.123233995736766e-17, not 0; with
    [ra = 0.8], slope factor 1 and a tangent of at most 1 in absolute
    value (incidence 45) the intensity stored at the angle 90 exceeds
    [10^56]. *)
Theorem beckmann_guard_passes_positive_cosine
  (ra thetaInc slopeFactor a cosA tangent : R) :
  cosA > 0 ->
  beckmann ra thetaInc slopeFactor a
  = beckmannFrom ra slopeFactor (cos (a * PI / 180))
      (tan (a * PI / 180 - thetaInc * PI / 180))
  /\ (let m := Rmax 0.005 ((ra / 5) * slopeFactor) in
      Rmax 0 (beckmannFrom ra slopeFactor cosA tangent)
      = (1 / (PI * m ^ 2 * cosA ^ 4)) * exp (- tangent ^ 2 / (2 * m ^ 2)))
  /\ 0 < Rmax 0 (beckmannFrom ra slopeFactor cosA tangent)
  /\ (ra = 0.8 -> slopeFactor = 1 ->
      cosA <= 6123233995736766 / 10 ^ 32 -> Rabs tangent <= 1 ->
      10 ^ 56 < Rmax 0 (beckmannFrom ra slopeFactor cosA tangent)).
Proof.
  intro Hc.
  pose proof (beckmannFrom_pos ra slopeFactor cosA tangent Hc) as Hpos.
  split; [reflexivity |].
  split; [cbv zeta; rewrite Rmax_right by lra; apply beckmannFrom_lit;
          exact Hc |].
  split; [rewrite Rmax_right; lra |].
  intros -> -> Hsmall Htan. rewrite Rmax_right by lra.
  rewrite beckmannFrom_lit by exact Hc. cbv zeta.
  rewrite (Rmax_right 0.005 (0.8 / 5 * 1)) by lra.
  assert (Ht : - 1 <= tangent <= 1).
  { unfold Rabs in Htan. destruct (Rcase_abs tangent); lra. }
  pose proof PI_RGT_0 as Hpi0. pose proof PI_4 as Hpi4.
  set (c0 := 6123233995736766 / 10 ^ 32) in *.
  assert (Hc0 : 0 < c0) by lra.
  assert (Hc4 : 0 < cosA ^ 4 <= c0 ^ 4).
  { split; [apply pow_lt; exact Hc |].
    apply pow_incr. lra. }
  assert (Hexp : / 3 ^ 20 <= exp (- tangent ^ 2 / (2 * (0.8 / 5 * 1) ^ 2))).
  { apply exp_lower_bound.
    replace (- tangent ^ 2 / (2 * (0.8 / 5 * 1) ^ 2))
      with (- (tangent * tangent) * (625 / 32)) by (simpl; lra).
    nra. }
  set (den := PI * (0.8 / 5 * 1) ^ 2 * cosA ^ 4).
  assert (Hden : 0 < den <= 4 * (0.8 / 5 * 1) ^ 2 * c0 ^ 4).
  { unfold den. split.
    - apply Rmult_lt_0_compat; [| lra].
      apply Rmult_lt_0_compat; [exact Hpi0 | simpl; lra].
    - assert (Hsq : 0 < (0.8 / 5 * 1) ^ 2) by (simpl; lra).
      apply Rmult_le_compat; lra. }
  assert (Hinv : / (4 * (0.8 / 5 * 1) ^ 2 * c0 ^ 4) <= 1 / den).
  { unfold Rdiv. rewrite Rmult_1_l.
    apply Rinv_le_contravar; lra. }
  assert (Hconst : 10 ^ 56 < / (4 * (0.8 / 5 * 1) ^ 2 * c0 ^ 4) * / 3 ^ 20).
  { rewrite <- Rinv_mult. apply (Rmult_lt_reg_r
      (4 * (0.8 / 5 * 1) ^ 2 * c0 ^ 4 * 3 ^ 20)).
    - unfold c0. simpl. lra.
    - rewrite Rinv_l; [unfold c0; simpl; lra | unfold c0; simpl; lra]. }
  assert (H3 : 0 < / 3 ^ 20) by (apply Rinv_0_lt_compat; simpl; lra).
  assert (Hk : 0 < / (4 * (0.8 / 5 * 1) ^ 2 * c0 ^ 4)).
  { apply Rinv_0_lt_compat. lra. }
  eapply Rlt_le_trans; [exact Hconst |].
  apply Rmult_le_compat; lra.
Qed.

(** C3 at the failing input: cosine 6.123233995736766e-17 and tangent
    1. *)
Lemma beckmann_guard_passes_positive_cosine_witness :
  10 ^ 56 < Rmax 0 (beckmannFrom 0.8 1 (6123233995736766 / 10 ^ 32) 1).
Proof.
  destruct (beckmann_guard_passes_positive_cosine 0.8 45 1 90
              (6123233995736766 / 10 ^ 32) 1) as [_ [_ [_ H]]].
  - simpl. lra.
  - apply H; [reflexivity | reflexivity | right; reflexivity |].
    rewrite Rabs_R1. lra.
Defined.

Lemma gParameter_nonneg (ra lambda thetaInc : R) :
  0 <= gParameter ra lambda thetaInc.
Proof. rewrite gParameter_formula. apply pow2_ge_0. Qed.

Lemma harveyShack_lit (thetaInc slopeFactor g a : R) :
  harveyShack thetaInc slopeFactor g a
  = exp (- g) * exp (- (Rabs (a - thetaInc) / (1.5 * slopeFactor)) ^ 2)
    + 0.3 * (1 - exp (- g)) * Math_pow (cos (a * PI / 180)) 1.5.
Proof.
  unfold harveyShack. cbv zeta. rewrite Math_pow_2. simpl pow.
  rewrite Rmult_1_r. ring.
Qed.

Lemma exp_neg_le_1 (g : R) : 0 <= g -> exp (- g) <= 1.
Proof.
  intro Hg. rewrite <- exp_0. destruct Hg as [Hg | <-].
  - left. apply exp_increasing. lra.
  - rewrite Ropp_0. lra.
Qed.

Lemma harveyShack_nonneg (thetaInc slopeFactor g a : R) :
  0 <= g -> 0 <= harveyShack thetaInc slopeFactor g a.
Proof.
  intro Hg. rewrite harveyShack_lit.
  pose proof (exp_pos (- g)) as H1.
  pose proof (exp_pos (- (Rabs (a - thetaInc) / (1.5 * slopeFactor)) ^ 2)) as H2.
  pose proof (exp_neg_le_1 g Hg) as H3.
  pose proof (Math_pow_1_5_nonneg (cos (a * PI / 180))) as H4.
  assert (0 <= exp (- g) * exp (- (Rabs (a - thetaInc) / (1.5 * slopeFactor)) ^ 2))
    by (apply Rmult_le_pos; lra).
  assert (0 <= 0.3 * (1 - exp (- g)) * Math_pow (cos (a * PI / 180)) 1.5)
    by (apply Rmult_le_pos; [lra | exact H4]).
  lra.
Qed.

(** The last branch of the dispatch takes every tag that is neither
    ['Rayleigh-Rice'] nor ['Beckmann']. *)
Lemma modelIntensity_fallback (activeModel : string)
  (ra lambda thetaInc step slopeFactor g a : R) :
  activeModel <> "Rayleigh-Rice" -> activeModel <> "Beckmann" ->
  modelIntensity activeModel ra lambda thetaInc step slopeFactor g a
  = harveyShack thetaInc slopeFactor g a.
Proof.
  intros H1 H2. unfold modelIntensity.
  apply String.eqb_neq in H1, H2. rewrite H1, H2. reflexivity.
Qed.



(** ** The profile generators *)

Section ProfileProperties.

Variable random : nat -> R.

Lemma profileLoop_spec (rq alpha : R) (n : nat) :
  forall (i : Z) (prev : R) (k : nat),
  exists points,
    profileLoop random rq alpha n i prev k = (points, (k + n)%nat)
    /\ List.length points = n
    /\ forall j, (j < n)%nat ->
         exists p,
           nth_error points j = Some p
           /\ Point.x p = (i + Z.of_nat j)%Z
           /\ Point.y p
              = match j with
                | O => prev
                | S j' => Point.y (nth j' points (Point.mk 0 0))
                end * (1 - alpha)
                + (random (k + j)%nat - 0.5) * 4 * rq * alpha.
Proof.
  induction n as [| n IH]; intros i prev k.
  - exists []. simpl. rewrite Nat.add_0_r.
    split; [reflexivity |]. split; [reflexivity |]. intros j Hj. lia.
  - simpl profileLoop.
    set (val := prev * (1 - alpha) + (random k - 0.5) * 4 * rq * alpha).
    destruct (IH (i + 1)%Z val (S k)) as [points [Hloop [Hlen Hnth]]].
    rewrite Hloop. exists (Point.mk i val :: points).
    split; [f_equal; lia |]. split; [simpl; rewrite Hlen; reflexivity |].
    intros [| j] Hj.
    + eexists. split; [reflexivity |]. simpl Point.x. simpl Point.y.
      rewrite Nat.add_0_r, Z.add_0_r. split; reflexivity.
    + destruct (Hnth j) as [p [Hp [Hx Hy]]]; [lia |].
      exists p. split; [exact Hp |]. split; [rewrite Hx; lia |].
      rewrite Hy. replace (S k + j)%nat with (k + S j)%nat by lia.
      f_equal. f_equal. destruct j as [| j']; reflexivity.
Qed.

(** C9: for an integer [length] that is not negative the profile has
    [length] points; the point of index [i] has [x = i] and
    [y = prev * (1 - 0.15) + noise * 0.15], where [prev] is 0 for the
    first point and the [y] of the point before for the others, and
    [noise = (u - 0.5) * 4 * (1.25 * ra)] for the [i]-th draw [u] of
    the call.  The function is total: it returns for every input. *)
Theorem surface_profile_recurrence (k : nat) (ra : R) (length : Z) :
  (0 <= length)%Z ->
  exists points,
    generateSurfaceProfile random k ra length
    = (points, (k + Z.to_nat length)%nat)
    /\ Z.of_nat (List.length points) = length
    /\ forall i, (i < Z.to_nat length)%nat ->
         exists p,
           nth_error points i = Some p
           /\ Point.x p = Z.of_nat i
           /\ let prev := match i with
                          | O => 0
                          | S i' => Point.y (nth i' points (Point.mk 0 0))
                          end in
              let noise := (random (k + i)%nat - 0.5) * 4 * (1.25 * ra) in
              Point.y p = prev * (1 - 0.15) + noise * 0.15.
Proof.
  intro Hlen. unfold generateSurfaceProfile. cbv zeta.
  destruct (profileLoop_spec (ra * 1.25) 0.15 (Z.to_nat length) 0%Z 0 k)
    as [points [Hloop [Hn Hnth]]].
  exists points. split; [exact Hloop |]. split; [lia |].
  intros i Hi. destruct (Hnth i Hi) as [p [Hp [Hx Hy]]].
  exists p. split; [exact Hp |]. split; [rewrite Hx; lia |].
  cbv zeta. rewrite Hy. ring.
Qed.

End ProfileProperties.

(** C9 for the default length 200. *)
Lemma surface_profile_recurrence_witness :
  exists points,
    generateSurfaceProfile (fun _ => 0.75) 0 0.8 200 = (points, 200%nat)
    /\ Z.of_nat (List.length points) = 200%Z.
Proof.
  destruct (surface_profile_recurrence (fun _ => 0.75) 0 0.8 200)
    as [points [Hcall [Hlen _]]].
  - lia.
  - exists points. split; [exact Hcall | exact Hlen].
Defined.

(** ** The box blur *)

Lemma fillRow_spec (random : nat -> R) (rq : R) (n : nat) :
  forall k,
    fillRow random rq n k
    = (map (fun j => (random (k + j)%nat - 0.5) * 2 * rq) (seq 0 n),
       (k + n)%nat).
Proof.
  induction n as [| n IH]; intro k; simpl.
  - rewrite Nat.add_0_r. reflexivity.
  - rewrite IH, <- seq_shift, map_map, Nat.add_0_r. f_equal.
    + f_equal. apply map_ext. intro j. do 4 f_equal. lia.
    + lia.
Qed.

Lemma fillGrid_spec (random : nat -> R) (rq : R) (size n : nat) :
  forall k,
    fillGrid random rq size n k
    = (map (fun i =>
              map (fun j => (random (k + i * size + j)%nat - 0.5) * 2 * rq)
                (seq 0 size))
         (seq 0 n),
       (k + n * size)%nat).
Proof.
  induction n as [| n IH]; intro k; simpl.
  - rewrite Nat.add_0_r. reflexivity.
  - rewrite fillRow_spec, IH, <- seq_shift, map_map. f_equal.
    + f_equal.
      * apply map_ext. intro j. do 4 f_equal. lia.
      * apply map_ext. intro i. apply map_ext. intro j. do 4 f_equal. lia.
    + lia.
Qed.

(** The raw grid holds one draw per cell, row after row. *)
Lemma fillGrid_cell (random : nat -> R) (rq : R) (size k : nat) (i j : nat) :
  (i < size)%nat -> (j < size)%nat ->
  cell (fst (fillGrid random rq size size k)) (Z.of_nat i) (Z.of_nat j)
  = (random (k + i * size + j)%nat - 0.5) * 2 * rq.
Proof.
  intros Hi Hj. rewrite fillGrid_spec. unfold cell. cbn [fst].
  rewrite !Nat2Z.id.
  set (row := fun i' => map (fun j' => (random (k + i' * size + j')%nat - 0.5) * 2 * rq)
                          (seq 0 size)).
  rewrite (nth_indep _ [] (row O)) by (rewrite length_map, length_seq; exact Hi).
  rewrite (map_nth row), seq_nth by exact Hi. unfold row.
  set (h := fun j' => (random (k + (0 + i) * size + j')%nat - 0.5) * 2 * rq).
  rewrite (nth_indep _ 0 (h O)) by (rewrite length_map, length_seq; exact Hj).
  rewrite (map_nth h), seq_nth by exact Hj. unfold h. reflexivity.
Qed.

Lemma fold_inBounds (grid : list (list R)) (size : Z) (cells : list (Z * Z)) :
  forall (sum : R) (count : nat),
    fold_left
      (fun acc p =>
         if inBounds size p
         then (fst acc + cell grid (fst p) (snd p), S (snd acc))
         else acc)
      cells (sum, count)
    = (sum + cellSum grid (filter (inBounds size) cells),
       (count + List.length (filter (inBounds size) cells))%nat).
Proof.
  induction cells as [| p cells IH]; intros sum count; simpl.
  - f_equal; [ring | lia].
  - destruct (inBounds size p); simpl.
    + rewrite IH. f_equal; [ring | lia].
    + apply IH.
Qed.

(** The two innermost loops add up the existing cells of the block and
    count them. *)
Lemma window_neighbourhood (grid : list (list R)) (size i j : Z) :
  window grid size i j
  = (cellSum grid (neighbourhood size i j),
     List.length (neighbourhood size i j)).
Proof.
  transitivity
    (fold_left
       (fun acc p =>
          if inBounds size p
          then (fst acc + cell grid (fst p) (snd p), S (snd acc))
          else acc)
       (block i j) (0, O)).
  - reflexivity.
  - rewrite fold_inBounds. unfold neighbourhood. f_equal. ring.
Qed.

Lemma smoothCell_mean (grid : list (list R)) (size i j : Z) :
  smoothCell grid size i j
  = cellSum grid (neighbourhood size i j)
    / INR (List.length (neighbourhood size i j)).
Proof.
  unfold smoothCell. rewrite window_neighbourhood. reflexivity.
Qed.

Lemma block_NoDup (i j : Z) : NoDup (block i j).
Proof.
  unfold block, offsets. simpl.
  repeat (constructor;
          [simpl; intro H;
           repeat (destruct H as [H | H]; [injection H; lia |]);
           exact H |]).
  constructor.
Qed.

Lemma neighbourhood_NoDup (size i j : Z) : NoDup (neighbourhood size i j).
Proof. apply NoDup_filter, block_NoDup. Qed.

Lemma neighbourhood_inside (size i j : Z) (p : Z * Z) :
  In p (neighbourhood size i j) ->
  (0 <= fst p < size /\ 0 <= snd p < size
   /\ i - 1 <= fst p <= i + 1 /\ j - 1 <= snd p <= j + 1)%Z.
Proof.
  unfold neighbourhood. intro H. apply filter_In in H as [Hin Hb].
  unfold inBounds in Hb. rewrite !andb_true_iff in Hb.
  destruct Hb as [[[H1 H2] H3] H4].
  apply Z.geb_le in H1, H3. apply Z.ltb_lt in H2, H4.
  unfold block, offsets in Hin. simpl in Hin.
  repeat (destruct Hin as [Hin | Hin]; [subst p; simpl in *; lia |]).
  contradiction.
Qed.

Ltac count_cells :=
  unfold neighbourhood, block, offsets, inBounds; simpl;
  rewrite ?Z.geb_leb;
  repeat match goal with
    | |- context [(?a <=? ?b)%Z] =>
        destruct (Z.leb_spec a b); try lia; simpl
    | |- context [(?a <? ?b)%Z] =>
        destruct (Z.ltb_spec a b); try lia; simpl
    end;
  try reflexivity.

Lemma neighbourhood_corner (size i j : Z) :
  (2 <= size)%Z -> isCorner size i j ->
  List.length (neighbourhood size i j) = 4%nat.
Proof.
  intros Hs [[Hi | Hi] [Hj | Hj]]; subst i j; count_cells.
Qed.

Lemma neighbourhood_edge (size i j : Z) :
  isEdge size i j -> List.length (neighbourhood size i j) = 6%nat.
Proof.
  intros [[[Hi | Hi] Hj] | [Hi [Hj | Hj]]]; try subst i; try subst j;
    count_cells.
Qed.

Lemma neighbourhood_interior (size i j : Z) :
  isInterior size i j -> List.length (neighbourhood size i j) = 9%nat.
Proof.
  intros [Hi Hj]. count_cells.
Qed.

Lemma neighbourhood_single : neighbourhood 1 0 0 = [(0, 0)%Z].
Proof. reflexivity. Qed.

Lemma indices_nth {A : Type} (f : Z -> A) (size : Z) (i : nat) :
  (i < Z.to_nat size)%nat ->
  nth_error (map f (indices size)) i = Some (f (Z.of_nat i)).
Proof.
  intro Hi. unfold indices. rewrite !nth_error_map, nth_error_seq.
  destruct (Nat.ltb_spec i (Z.to_nat size)) as [_ | Hge]; [| lia].
  reflexivity.
Qed.

(** C8, as amended: every cell of the returned grid is the arithmetic
    mean of the raw cells of its 3 x 3 block that exist in the grid,
    without wrapping.  These are 4 cells at a corner of a grid of size
    at least 2, 6 cells on an edge and 9 cells inside; in the grid of
    size 1 the only cell is the mean of 1 cell. *)
Theorem box_blur_truncated (random : nat -> R) (k : nat) (ra : R) (size : Z) :
  (0 < size)%Z ->
  let n := Z.to_nat size in
  exists grid out,
    fillGrid random (ra * 1.25) n n k = (grid, (k + n * n)%nat)
    /\ generateSurfaceProfile3D random k ra size = (out, (k + n * n)%nat)
    /\ (forall i j, (i < n)%nat -> (j < n)%nat ->
          cell grid (Z.of_nat i) (Z.of_nat j)
          = (random (k + i * n + j)%nat - 0.5) * 2 * (ra * 1.25))
    /\ forall i j, (i < n)%nat -> (j < n)%nat ->
         let cells := neighbourhood size (Z.of_nat i) (Z.of_nat j) in
         exists row v,
           nth_error out i = Some row /\ nth_error row j = Some v
           /\ v = cellSum grid cells / INR (List.length cells)
           /\ NoDup cells
           /\ (forall p, In p cells ->
                 (0 <= fst p < size /\ 0 <= snd p < size
                  /\ Z.of_nat i - 1 <= fst p <= Z.of_nat i + 1
                  /\ Z.of_nat j - 1 <= snd p <= Z.of_nat j + 1)%Z)
           /\ ((2 <= size)%Z -> isCorner size (Z.of_nat i) (Z.of_nat j) ->
               List.length cells = 4%nat)
           /\ (isEdge size (Z.of_nat i) (Z.of_nat j) ->
               List.length cells = 6%nat)
           /\ (isInterior size (Z.of_nat i) (Z.of_nat j) ->
               List.length cells = 9%nat)
           /\ (size = 1%Z -> List.length cells = 1%nat).
Proof.
  intros Hsize n.
  exists (fst (fillGrid random (ra * 1.25) n n k)).
  exists (smooth (fst (fillGrid random (ra * 1.25) n n k)) size).
  split; [rewrite fillGrid_spec; reflexivity |].
  split.
  { unfold generateSurfaceProfile3D. cbv zeta. fold n.
    rewrite fillGrid_spec. reflexivity. }
  split; [intros i j Hi Hj; apply fillGrid_cell; assumption |].
  intros i j Hi Hj cells.
  eexists. eexists.
  split; [unfold smooth; apply indices_nth; exact Hi |].
  split; [apply indices_nth; exact Hj |].
  split; [apply smoothCell_mean |].
  split; [apply neighbourhood_NoDup |].
  split; [apply neighbourhood_inside |].
  split; [apply neighbourhood_corner |].
  split; [apply neighbourhood_edge |].
  split; [apply neighbourhood_interior |].
  intros ->. assert (i = O /\ j = O) as [-> ->] by (unfold n in *; lia).
  reflexivity.
Qed.

(** C8, as amended, at the corner (0, 0) of a grid of size 50. *)
Lemma box_blur_truncated_witness :
  List.length (neighbourhood 50 0 0) = 4%nat.
Proof.
  destruct (box_blur_truncated (fun _ => 0.75) 0 0.8 50 eq_refl)
    as [grid [out [_ [_ [_ Hcell]]]]].
  destruct (Hcell 0%nat 0%nat) as [row [v [_ [_ [_ [_ [_ [Hcorner _]]]]]]]].
  - simpl. lia.
  - simpl. lia.
  - apply Hcorner.
    + lia.
    + split; left; reflexivity.
Defined.

(** C8, as stated, fails for size 1: the only cell of that grid is a
    corner, its block holds no other cell of the grid, and the value
    returned for it is the mean of that single raw cell. *)
Lemma one_by_one_corner_averages_one_cell :
  let random := fun _ : nat => 0.75 in
  let grid := fst (fillGrid random (0.8 * 1.25) 1 1 0) in
  isCorner 1 0 0
  /\ grid = [[(0.75 - 0.5) * 2 * (0.8 * 1.25)]]
  /\ window grid 1 0 0 = (0 + cell grid 0 0, 1%nat)
  /\ snd (window grid 1 0 0) <> 4%nat
  /\ fst (generateSurfaceProfile3D random 0 0.8 1)
     = [[(0 + (0.75 - 0.5) * 2 * (0.8 * 1.25)) / 1]].
Proof.
  cbv zeta. split; [split; left; reflexivity |].
  split; [reflexivity |].
  split; [reflexivity |].
  split; [simpl; discriminate |].
  reflexivity.
Qed.

(** ** The descending sort *)

Lemma Array_insert_perm {A : Type} (compare : A -> A -> R) (u : A) (l : list A) :
  Permutation (u :: l) (Array_insert compare u l).
Proof.
  induction l as [| w l IH]; simpl.
  - apply Permutation_refl.
  - destruct (Rlt_dec 0 (compare u w)).
    + eapply perm_trans; [apply perm_swap |]. apply perm_skip. exact IH.
    + apply Permutation_refl.
Qed.

Lemma Array_sort_perm {A : Type} (compare : A -> A -> R) (l : list A) :
  Permutation l (Array_sort compare l).
Proof.
  induction l as [| u l IH]; simpl.
  - apply perm_nil.
  - eapply perm_trans; [apply perm_skip; exact IH |].
    apply Array_insert_perm.
Qed.

Lemma insert_descending (u : ScatteringData) (l : list ScatteringData) :
  StronglySorted descending l ->
  StronglySorted descending
    (Array_insert (fun a b => intensity b - intensity a) u l).
Proof.
  induction 1 as [| w l Hsorted IH Hall]; simpl.
  - constructor; [constructor | constructor].
  - destruct (Rlt_dec 0 (intensity w - intensity u)) as [Hlt | Hge].
    + constructor; [exact IH |].
      apply Forall_forall. intros v Hv.
      apply (Permutation_in _ (Permutation_sym (Array_insert_perm _ u l))) in Hv.
      destruct Hv as [<- | Hv].
      * unfold descending. lra.
      * rewrite Forall_forall in Hall. apply Hall. exact Hv.
    + constructor; [constructor; assumption |].
      constructor; [unfold descending; lra |].
      rewrite Forall_forall in Hall |- *. intros v Hv.
      specialize (Hall v Hv). unfold descending in *. lra.
Qed.

Lemma sortDescending_sorted (data : list ScatteringData) :
  StronglySorted descending (sortDescending data).
Proof.
  unfold sortDescending. induction data as [| u data IH]; simpl.
  - constructor.
  - apply insert_descending. exact IH.
Qed.

Lemma sortDescending_perm (data : list ScatteringData) :
  Permutation data (sortDescending data).
Proof. apply Array_sort_perm. Qed.

(** ** Sums *)

Lemma sum_fold_shift (l : list ScatteringData) :
  forall s,
    fold_left (fun acc d => acc + intensity d) l s
    = s + fold_left (fun acc d => acc + intensity d) l 0.
Proof.
  induction l as [| d l IH]; intro s; simpl.
  - ring.
  - rewrite (IH (s + intensity d)), (IH (0 + intensity d)). ring.
Qed.

Lemma totalIntensity_cons (d : ScatteringData) (l : list ScatteringData) :
  totalIntensity (d :: l) = intensity d + totalIntensity l.
Proof.
  unfold totalIntensity. simpl. rewrite sum_fold_shift. ring.
Qed.

Lemma totalIntensity_perm (l l' : list ScatteringData) :
  Permutation l l' -> totalIntensity l = totalIntensity l'.
Proof.
  induction 1 as [| d l l' _ IH | d d' l | l l' l'' _ IH1 _ IH2].
  - reflexivity.
  - rewrite !totalIntensity_cons, IH. reflexivity.
  - rewrite !totalIntensity_cons. ring.
  - rewrite IH1. exact IH2.
Qed.

Lemma runningSum_cons (d : ScatteringData) (l : list ScatteringData) (i : nat) :
  runningSum (d :: l) (S i) = intensity d + runningSum l i.
Proof.
  unfold runningSum. cbn [firstn]. apply totalIntensity_cons.
Qed.

Lemma runningSum_first (d : ScatteringData) (l : list ScatteringData) :
  runningSum (d :: l) 0 = intensity d.
Proof.
  unfold runningSum, totalIntensity. simpl. ring.
Qed.

Lemma runningSum_last (l : list ScatteringData) (i : nat) :
  List.length l = S i -> runningSum l i = totalIntensity l.
Proof.
  intro H. unfold runningSum. rewrite <- H, firstn_all. reflexivity.
Qed.

(** ** The accumulation loop *)

Section Accumulation.

Variable total : R.

Lemma firstCrossing_spec (threshold : R) (rest : list ScatteringData) :
  forall (i : nat) (currentSum : R),
    let count := firstCrossing total threshold rest i currentSum in
    (count = O
     /\ forall j, (j < List.length rest)%nat ->
          (currentSum + runningSum rest j) / total < threshold)
    \/ (exists j,
          count = S (i + j) /\ (j < List.length rest)%nat
          /\ (currentSum + runningSum rest j) / total >= threshold
          /\ forall j', (j' < j)%nat ->
               (currentSum + runningSum rest j') / total < threshold).
Proof.
  induction rest as [| d rest IH]; intros i currentSum; cbv zeta.
  - left. split; [reflexivity |]. simpl. intros j Hj. lia.
  - cbn [firstCrossing].
    destruct (Rge_dec ((currentSum + intensity d) / total) threshold)
      as [Hge | Hlt].
    + right. exists O. rewrite runningSum_first, Nat.add_0_r.
      split; [reflexivity |]. split; [simpl; lia |].
      split; [exact Hge |]. intros j' Hj'. lia.
    + apply Rnot_ge_lt in Hlt.
      destruct (IH (S i) (currentSum + intensity d))
        as [[Hc Hnone] | [j [Hc [Hj [Hge Hbefore]]]]].
      * left. split; [exact Hc |]. intros [| j] Hj.
        -- rewrite runningSum_first. exact Hlt.
        -- rewrite runningSum_cons, <- Rplus_assoc. apply Hnone.
           simpl in Hj. lia.
      * right. exists (S j). split; [rewrite Hc; f_equal; lia |].
        split; [simpl; lia |]. split.
        -- rewrite runningSum_cons, <- Rplus_assoc. exact Hge.
        -- intros [| j'] Hj'.
           ++ rewrite runningSum_first. exact Hlt.
           ++ rewrite runningSum_cons, <- Rplus_assoc. apply Hbefore. lia.
Qed.

Lemma firstCrossing_char (threshold : R) (sorted : list ScatteringData) :
  let count := firstCrossing total threshold sorted 0 0 in
  (count = O
   /\ forall j, (j < List.length sorted)%nat ->
        runningSum sorted j / total < threshold)
  \/ isFirstCrossing total sorted threshold count.
Proof.
  cbv zeta.
  destruct (firstCrossing_spec threshold sorted 0 0)
    as [[Hc Hnone] | [j [Hc [Hj [Hge Hbefore]]]]].
  - left. split; [exact Hc |]. intros j Hj.
    specialize (Hnone j Hj). rewrite Rplus_0_l in Hnone. exact Hnone.
  - right. exists j. rewrite Rplus_0_l in Hge.
    split; [exact Hc |]. split; [exact Hj |]. split; [exact Hge |].
    intros j' Hj'. specialize (Hbefore j' Hj').
    rewrite Rplus_0_l in Hbefore. exact Hbefore.
Qed.

Lemma firstCrossing_lower (threshold : R) (rest : list ScatteringData)
  (i : nat) (currentSum : R) :
  firstCrossing total threshold rest i currentSum <> O ->
  (i < firstCrossing total threshold rest i currentSum)%nat.
Proof.
  intro Hne.
  destruct (firstCrossing_spec threshold rest i currentSum)
    as [[Hc _] | [j [Hc _]]]; [contradiction | lia].
Qed.

Lemma crossing_cases (count : nat) (ratio threshold : R) (i : nat) :
  crossing count ratio threshold i
  = if (count =? 0)%nat
    then if Rge_dec ratio threshold then S i else O
    else count.
Proof.
  unfold crossing. destruct (Nat.eqb_spec count 0) as [-> | _];
    [| reflexivity].
  destruct (Rge_dec ratio threshold); [lia | reflexivity].
Qed.

(** As long as the 99% counter is unset, each counter ends as the
    first crossing of its threshold. *)
Lemma energyLoop_counts (rest : list ScatteringData) :
  forall (i : nat) (currentSum : R) (c : Counts),
    e99Count c = O ->
    energyLoop total rest i currentSum c
    = mkCounts
        (if (e50Count c =? 0)%nat
         then firstCrossing total 0.50 rest i currentSum else e50Count c)
        (if (e90Count c =? 0)%nat
         then firstCrossing total 0.90 rest i currentSum else e90Count c)
        (firstCrossing total 0.99 rest i currentSum).
Proof.
  induction rest as [| d rest IH]; intros i currentSum [c50 c90 c99] H99;
    simpl in H99; subst c99.
  - simpl. destruct c50, c90; reflexivity.
  - cbn [energyLoop firstCrossing e50Count e90Count e99Count].
    rewrite !crossing_cases. cbn [Nat.eqb].
    set (ratio := (currentSum + intensity d) / total).
    destruct (Rge_dec ratio 0.99) as [H3 | H3].
    + cbn [Nat.eqb].
      destruct (Rge_dec ratio 0.50) as [_ | H1]; [| exfalso; lra].
      destruct (Rge_dec ratio 0.90) as [_ | H2]; [| exfalso; lra].
      destruct c50, c90; reflexivity.
    + cbn [Nat.eqb]. rewrite IH by reflexivity.
      cbn [e50Count e90Count].
      destruct (Rge_dec ratio 0.50); destruct (Rge_dec ratio 0.90);
        destruct c50, c90; reflexivity.
Qed.

(** The [break]: once the 99% counter is set, what follows in the array
    is not read. *)
Lemma energyLoop_break (rest : list ScatteringData) :
  forall (i : nat) (currentSum : R) (c : Counts) (tail : list ScatteringData),
    e99Count c = O ->
    e99Count (energyLoop total rest i currentSum c) <> O ->
    energyLoop total
      (firstn (e99Count (energyLoop total rest i currentSum c) - i) rest
       ++ tail) i currentSum c
    = energyLoop total rest i currentSum c.
Proof.
  induction rest as [| d rest IH]; intros i currentSum c tail H99 Hset.
  - simpl in Hset. contradiction.
  - pose proof (energyLoop_counts (d :: rest) i currentSum c H99) as Hcounts.
    assert (Hlow : (i < e99Count (energyLoop total (d :: rest) i currentSum c))%nat).
    { rewrite Hcounts. cbn [e99Count]. apply firstCrossing_lower.
      rewrite Hcounts in Hset. exact Hset. }
    clear Hcounts.
    destruct (e99Count (energyLoop total (d :: rest) i currentSum c) - i)%nat
      as [| m] eqn:Hm; [lia |].
    cbn [firstn app]. cbn [energyLoop] in *.
    set (c' := mkCounts
                 (crossing (e50Count c) ((currentSum + intensity d) / total) 0.50 i)
                 (crossing (e90Count c) ((currentSum + intensity d) / total) 0.90 i)
                 (crossing (e99Count c) ((currentSum + intensity d) / total) 0.99 i))
      in *.
    destruct (Nat.eqb_spec (e99Count c') 0) as [Hz | Hnz]; [| reflexivity].
    replace m
      with (e99Count (energyLoop total rest (S i) (currentSum + intensity d) c')
            - S i)%nat by lia.
    apply IH; assumption.
Qed.

End Accumulation.

(** ** What [calculateEnergyConcentration] returns *)

Lemma energyCounts_firstCrossing (data : list ScatteringData) :
  energyCounts data
  = mkCounts
      (firstCrossing (totalIntensity data) 0.50 (sortDescending data) 0 0)
      (firstCrossing (totalIntensity data) 0.90 (sortDescending data) 0 0)
      (firstCrossing (totalIntensity data) 0.99 (sortDescending data) 0 0).
Proof.
  unfold energyCounts. rewrite energyLoop_counts by reflexivity. reflexivity.
Qed.

(** With a total that is not zero every threshold up to 1 is reached,
    by the last sample at the latest. *)
Lemma threshold_reached (data : list ScatteringData) (threshold : R) :
  totalIntensity data <> 0 -> threshold <= 1 ->
  isFirstCrossing (totalIntensity data) (sortDescending data) threshold
    (firstCrossing (totalIntensity data) threshold (sortDescending data) 0 0).
Proof.
  intros Htotal Hthr.
  destruct (firstCrossing_char (totalIntensity data) threshold
              (sortDescending data)) as [[_ Hnone] | H]; [exfalso | exact H].
  pose proof (sortDescending_perm data) as Hperm.
  pose proof (totalIntensity_perm _ _ Hperm) as Hsum.
  destruct (sortDescending data) as [| d sorted] eqn:Hsorted.
  - apply Htotal. rewrite Hsum. reflexivity.
  - specialize (Hnone (List.length sorted)).
    rewrite runningSum_last, <- Hsum in Hnone by reflexivity.
    assert (Hone : totalIntensity data / totalIntensity data = 1)
      by (field; exact Htotal).
    rewrite Hone in Hnone. simpl in Hnone. specialize (Hnone (Nat.lt_succ_diag_r _)).
    lra.
Qed.

Lemma isFirstCrossing_order (total : R) (sorted : list ScatteringData)
  (t1 t2 : R) (c1 c2 : nat) :
  t1 <= t2 ->
  isFirstCrossing total sorted t1 c1 -> isFirstCrossing total sorted t2 c2 ->
  (c1 <= c2)%nat.
Proof.
  intros Ht [i1 [-> [_ [_ Hfirst]]]] [i2 [-> [_ [Hreach _]]]].
  destruct (Nat.le_gt_cases i1 i2) as [Hle | Hgt]; [lia | exfalso].
  specialize (Hfirst i2 Hgt). lra.
Qed.

Lemma energyCounts_order (data : list ScatteringData) :
  totalIntensity data <> 0 ->
  let c := energyCounts data in
  isFirstCrossing (totalIntensity data) (sortDescending data) 0.50 (e50Count c)
  /\ isFirstCrossing (totalIntensity data) (sortDescending data) 0.90 (e90Count c)
  /\ isFirstCrossing (totalIntensity data) (sortDescending data) 0.99 (e99Count c)
  /\ (1 <= e50Count c <= e90Count c)%nat
  /\ (e90Count c <= e99Count c <= List.length data)%nat.
Proof.
  intros Htotal c. unfold c. rewrite energyCounts_firstCrossing.
  cbn [e50Count e90Count e99Count].
  pose proof (threshold_reached data 0.50 Htotal ltac:(lra)) as H50.
  pose proof (threshold_reached data 0.90 Htotal ltac:(lra)) as H90.
  pose proof (threshold_reached data 0.99 Htotal ltac:(lra)) as H99.
  split; [exact H50 |]. split; [exact H90 |]. split; [exact H99 |].
  pose proof (isFirstCrossing_order _ _ 0.50 0.90 _ _ ltac:(lra) H50 H90).
  pose proof (isFirstCrossing_order _ _ 0.90 0.99 _ _ ltac:(lra) H90 H99).
  pose proof (Permutation_length (sortDescending_perm data)) as Hlen.
  destruct H50 as [i50 [E50 _]]. destruct H99 as [i99 [E99 [Hi99 _]]].
  lia.
Qed.

(** C5, as amended: a total of zero gives three zeros.  Otherwise the
    samples are taken by descending intensity, each counter is [i + 1]
    for the first index [i] at which the running sum divided by the
    total reaches 0.50, 0.90, 0.99, nothing after the 99% crossing is
    read, and each returned width is the product of its counter and
    [step] rounded to four decimals; the width is that product itself
    when the product has at most four decimals. *)
Theorem energy_widths_rounded (data : list ScatteringData) (step : R) :
  let total := totalIntensity data in
  let sorted := sortDescending data in
  let c := energyCounts data in
  (total = 0 -> calculateEnergyConcentration data step = mkStats 0 0 0)
  /\ (total <> 0 ->
      Permutation data sorted
      /\ StronglySorted descending sorted
      /\ isFirstCrossing total sorted 0.50 (e50Count c)
      /\ isFirstCrossing total sorted 0.90 (e90Count c)
      /\ isFirstCrossing total sorted 0.99 (e99Count c)
      /\ (forall tail,
            energyLoop total (firstn (e99Count c) sorted ++ tail) 0 0
              (mkCounts 0 0 0) = c)
      /\ calculateEnergyConcentration data step
         = mkStats (toFixed4 (INR (e50Count c) * step))
                   (toFixed4 (INR (e90Count c) * step))
                   (toFixed4 (INR (e99Count c) * step)))
  /\ (forall (count : nat) (z : Z),
        INR count * step = IZR z / 10000 ->
        toFixed4 (INR count * step) = INR count * step).
Proof.
  cbv zeta. split; [| split].
  - intro Hzero. unfold calculateEnergyConcentration. cbv zeta.
    destruct (Req_dec_T (totalIntensity data) 0);
      [reflexivity | contradiction].
  - intro Hne.
    destruct (energyCounts_order data Hne) as [H50 [H90 [H99 [_ _]]]].
    split; [apply sortDescending_perm |].
    split; [apply sortDescending_sorted |].
    split; [exact H50 |]. split; [exact H90 |]. split; [exact H99 |].
    split.
    + intro tail.
      pose proof (energyLoop_break (totalIntensity data) (sortDescending data)
                    0 0 (mkCounts 0 0 0) tail eq_refl) as Hbreak.
      rewrite Nat.sub_0_r in Hbreak. apply Hbreak.
      change (e99Count (energyCounts data) <> O).
      destruct H99 as [i [E _]]. rewrite E. discriminate.
    + unfold calculateEnergyConcentration. cbv zeta.
      destruct (Req_dec_T (totalIntensity data) 0);
        [contradiction | reflexivity].
  - intros count z Hz. rewrite Hz. apply toFixed4_exact.
Qed.

(** C5, as amended, on two samples of intensities 1 and 3 with step
    0.5: the total is 4, the sample of intensity 3 comes first and
    reaches 50%, the second one reaches 90% and 99%, and the widths are
    0.5, 1 and 1. *)
Lemma energy_widths_rounded_witness :
  let data := [mkScatteringData (-1) 1; mkScatteringData 0 3] in
  totalIntensity data <> 0
  /\ sortDescending data = [mkScatteringData 0 3; mkScatteringData (-1) 1]
  /\ isFirstCrossing (totalIntensity data) (sortDescending data) 0.50 1
  /\ isFirstCrossing (totalIntensity data) (sortDescending data) 0.90 2
  /\ isFirstCrossing (totalIntensity data) (sortDescending data) 0.99 2
  /\ calculateEnergyConcentration data 0.5 = mkStats 0.5 1 1.
Proof.
  cbv zeta.
  set (data := [mkScatteringData (-1) 1; mkScatteringData 0 3]).
  assert (Htotal : totalIntensity data = 4)
    by (unfold totalIntensity, data; simpl; ring).
  assert (Hne : totalIntensity data <> 0) by (rewrite Htotal; lra).
  assert (Hsorted : sortDescending data
                    = [mkScatteringData 0 3; mkScatteringData (-1) 1]).
  { unfold sortDescending, data. cbn [Array_sort Array_insert intensity].
    destruct (Rlt_dec 0 (3 - 1)) as [_ | H]; [reflexivity | exfalso; lra]. }
  assert (Hcounts : energyCounts data = mkCounts 1 2 2).
  { rewrite energyCounts_firstCrossing, Htotal, Hsorted.
    cbn [firstCrossing intensity].
    destruct (Rge_dec ((0 + 3) / 4) 0.50) as [_ | H]; [| exfalso; lra].
    destruct (Rge_dec ((0 + 3) / 4) 0.90) as [H | _]; [exfalso; lra |].
    destruct (Rge_dec ((0 + 3) / 4) 0.99) as [H | _]; [exfalso; lra |].
    destruct (Rge_dec ((0 + 3 + 1) / 4) 0.90) as [_ | H]; [| exfalso; lra].
    destruct (Rge_dec ((0 + 3 + 1) / 4) 0.99) as [_ | H]; [| exfalso; lra].
    reflexivity. }
  destruct (energy_widths_rounded data 0.5) as [_ [Hwidths Hexact]].
  destruct (Hwidths Hne) as [_ [_ [H50 [H90 [H99 [_ Hcall]]]]]].
  rewrite Hcounts in H50, H90, H99, Hcall.
  cbn [e50Count e90Count e99Count] in H50, H90, H99, Hcall.
  rewrite (Hexact 1%nat 5000%Z) in Hcall by (simpl; lra).
  rewrite (Hexact 2%nat 10000%Z) in Hcall by (simpl; lra).
  split; [exact Hne |]. split; [exact Hsorted |].
  split; [exact H50 |]. split; [exact H90 |]. split; [exact H99 |].
  rewrite Hcall. f_equal; simpl; lra.
Defined.

(** C5, as stated, fails when the product has more than four decimals:
    one sample of intensity 1 and step 0.00001 give counters 1 and
    widths 0, not 0.00001. *)
Lemma widths_are_rounded_to_four_decimals :
  let data := [mkScatteringData 0 1] in
  totalIntensity data = 1
  /\ energyCounts data = mkCounts 1 1 1
  /\ calculateEnergyConcentration data 0.00001 = mkStats 0 0 0
  /\ e50 (calculateEnergyConcentration data 0.00001) <> INR 1 * 0.00001.
Proof.
  cbv zeta.
  assert (Htotal : totalIntensity [mkScatteringData 0 1] = 1)
    by (unfold totalIntensity; simpl; ring).
  assert (Hcounts : energyCounts [mkScatteringData 0 1] = mkCounts 1 1 1).
  { rewrite energyCounts_firstCrossing, Htotal. unfold sortDescending.
    cbn [Array_sort Array_insert firstCrossing intensity].
    destruct (Rge_dec ((0 + 1) / 1) 0.50) as [_ | H]; [| exfalso; lra].
    destruct (Rge_dec ((0 + 1) / 1) 0.90) as [_ | H]; [| exfalso; lra].
    destruct (Rge_dec ((0 + 1) / 1) 0.99) as [_ | H]; [| exfalso; lra].
    reflexivity. }
  assert (Hround : toFixed4 (INR 1 * 0.00001) = 0).
  { rewrite toFixed4_small by (rewrite pow_10_21; apply Rabs_def1; simpl; lra).
    destruct (Rlt_dec (INR 1 * 0.00001) 0) as [H | _]; [simpl in H; lra |].
    replace (Zfloor (INR 1 * 0.00001 * 10000 + / 2)) with 0%Z
      by (symmetry; apply Zfloor_eq; simpl; lra).
    lra. }
  assert (Hcall : calculateEnergyConcentration [mkScatteringData 0 1] 0.00001
                  = mkStats 0 0 0).
  { unfold calculateEnergyConcentration. cbv zeta. rewrite Htotal, Hcounts.
    destruct (Req_dec_T 1 0) as [H | _]; [lra |].
    cbn [e50Count e90Count e99Count]. rewrite Hround. reflexivity. }
  split; [exact Htotal |]. split; [exact Hcounts |]. split; [exact Hcall |].
  rewrite Hcall. simpl. lra.
Qed.

(** C6: for a distribution of positive total intensity and a positive
    step the three widths are ordered, [e50 <= e90 <= e99], and none is
    negative. *)
Theorem energy_widths_ordered (data : list ScatteringData) (step : R) :
  totalIntensity data > 0 -> step > 0 ->
  let stats := calculateEnergyConcentration data step in
  0 <= e50 stats /\ e50 stats <= e90 stats /\ e90 stats <= e99 stats
  /\ 0 <= e90 stats /\ 0 <= e99 stats.
Proof.
  intros Htotal Hstep stats.
  assert (Hne : totalIntensity data <> 0) by lra.
  destruct (energyCounts_order data Hne) as [_ [_ [_ [H1 H2]]]].
  unfold stats, calculateEnergyConcentration. cbv zeta.
  destruct (Req_dec_T (totalIntensity data) 0); [contradiction |].
  cbn [e50 e90 e99].
  assert (Hmono : forall p q : nat, (p <= q)%nat ->
             toFixed4 (INR p * step) <= toFixed4 (INR q * step)).
  { intros p q Hpq. apply toFixed4_mono.
    - pose proof (pos_INR p). nra.
    - apply le_INR in Hpq. nra. }
  assert (Hpos : forall p : nat, 0 <= toFixed4 (INR p * step)).
  { intro p. apply toFixed4_nonneg. pose proof (pos_INR p). nra. }
  repeat split; try apply Hpos; apply Hmono; lia.
Qed.

(** C6 on a single sample of intensity 1 and step 1. *)
Lemma energy_widths_ordered_witness :
  let stats := calculateEnergyConcentration [mkScatteringData 0 1] 1 in
  e50 stats <= e90 stats /\ e90 stats <= e99 stats.
Proof.
  destruct (energy_widths_ordered [mkScatteringData 0 1] 1)
    as [_ [H1 [H2 _]]].
  - unfold totalIntensity. simpl. lra.
  - lra.
  - split; [exact H1 | exact H2].
Defined.

(** ** The Harvey-Shack lobe at normal incidence *)

Section NormalIncidence.

Variable g : R.
Hypothesis g_pos : 0 < g.

Lemma exp_neg_lt_1 : exp (- g) < 1.
Proof. rewrite <- exp_0. apply exp_increasing. lra. Qed.

Lemma harveyShack_even (a : R) :
  harveyShack 0 1 g (- a) = harveyShack 0 1 g a.
Proof.
  rewrite !harveyShack_lit.
  replace (- a - 0) with (- (a - 0)) by ring. rewrite Rabs_Ropp.
  replace (- a * PI / 180) with (- (a * PI / 180)) by (unfold Rdiv; ring).
  rewrite cos_neg. reflexivity.
Qed.

(** Away from the specular direction the lobe falls strictly. *)
Lemma harveyShack_decreasing (a b : R) :
  0 <= a -> a < b -> b <= 90 ->
  harveyShack 0 1 g b < harveyShack 0 1 g a.
Proof.
  intros Ha Hab Hb. rewrite !harveyShack_lit.
  rewrite !Rminus_0_r, !Rabs_right by lra.
  pose proof (exp_pos (- g)) as Hexp. pose proof exp_neg_lt_1 as Hlt1.
  pose proof PI_RGT_0 as Hpi.
  assert (Hspec : exp (- (b / (1.5 * 1)) ^ 2) < exp (- (a / (1.5 * 1)) ^ 2)).
  { apply exp_increasing. apply Ropp_lt_contravar.
    assert (a / (1.5 * 1) < b / (1.5 * 1)).
    { unfold Rdiv. apply Rmult_lt_compat_r; [| exact Hab].
      apply Rinv_0_lt_compat. lra. }
    assert (0 <= a / (1.5 * 1)).
    { unfold Rdiv. apply Rmult_le_pos; [exact Ha |].
      left. apply Rinv_0_lt_compat. lra. }
    simpl. nra. }
  assert (Hcos : cos (b * PI / 180) < cos (a * PI / 180)).
  { apply cos_decreasing_1; nra. }
  assert (Hcosb : 0 <= cos (b * PI / 180)) by (apply cos_sweep_nonneg; lra).
  pose proof (Math_pow_1_5_lt _ _ Hcosb Hcos) as Hpow.
  assert (H1 : exp (- g) * exp (- (b / (1.5 * 1)) ^ 2)
               < exp (- g) * exp (- (a / (1.5 * 1)) ^ 2))
    by (apply Rmult_lt_compat_l; assumption).
  assert (H2 : 0.3 * (1 - exp (- g)) * Math_pow (cos (b * PI / 180)) 1.5
               < 0.3 * (1 - exp (- g)) * Math_pow (cos (a * PI / 180)) 1.5)
    by (apply Rmult_lt_compat_l; [lra | exact Hpow]).
  lra.
Qed.

Lemma harveyShack_peak (a : R) :
  -90 <= a <= 90 -> a <> 0 -> harveyShack 0 1 g a < harveyShack 0 1 g 0.
Proof.
  intros Ha Hne. destruct (Rlt_dec a 0) as [Hneg | Hpos].
  - rewrite <- (harveyShack_even a).
    apply harveyShack_decreasing; lra.
  - apply harveyShack_decreasing; lra.
Qed.

Lemma harveyShack_peak_pos : 0 < harveyShack 0 1 g 0.
Proof.
  rewrite harveyShack_lit.
  pose proof (exp_pos (- g)) as H1. pose proof exp_neg_lt_1 as H2.
  pose proof (exp_pos (- (Rabs (0 - 0) / (1.5 * 1)) ^ 2)) as H3.
  pose proof (Math_pow_1_5_nonneg (cos (0 * PI / 180))) as H4.
  assert (0 < exp (- g) * exp (- (Rabs (0 - 0) / (1.5 * 1)) ^ 2))
    by (apply Rmult_lt_0_compat; assumption).
  assert (0 <= 0.3 * (1 - exp (- g)) * Math_pow (cos (0 * PI / 180)) 1.5)
    by (apply Rmult_le_pos; [lra | exact H4]).
  lra.
Qed.

End NormalIncidence.

(** ** The end-to-end scenario *)

Lemma scenario_g_pos : 0 < gParameter 0.8 0.5 0.
Proof.
  rewrite gParameter_normal_incidence. pose proof PI_RGT_0.
  apply pow_lt. lra.
Qed.

Lemma scenario_sample (k : nat) :
  sample "Harvey-Shack" 0.8 0.5 0 1 1 (gParameter 0.8 0.5 0) (sweepAngle 1 k)
  = mkScatteringData (IZR (Z.of_nat k - 90))
      (harveyShack 0 1 (gParameter 0.8 0.5 0) (IZR (Z.of_nat k - 90))).
Proof.
  unfold sample. rewrite sweepAngle_1, toFixed4_IZR. f_equal.
  rewrite modelIntensity_fallback by discriminate.
  apply Rmax_right, harveyShack_nonneg, gParameter_nonneg.
Qed.

Lemma scenario_raw (fuel : nat) :
  (181 <= fuel)%nat ->
  rawData fuel 0.8 0.5 0 "Harvey-Shack" 1 1
  = Some (map (fun k =>
                 mkScatteringData (IZR (Z.of_nat k - 90))
                   (harveyShack 0 1 (gParameter 0.8 0.5 0)
                      (IZR (Z.of_nat k - 90))))
            (seq 0 181)).
Proof.
  intro Hfuel.
  rewrite rawData_returns by (rewrite ?sampleCount_1; lra || exact Hfuel).
  rewrite sampleCount_1, resolveModel_requested by discriminate.
  f_equal. apply map_ext. exact scenario_sample.
Qed.

Lemma scenario_angle_range (k : nat) :
  (k < 181)%nat -> -90 <= IZR (Z.of_nat k - 90) <= 90.
Proof.
  intro Hk. split; apply IZR_le; lia.
Qed.

(** The reduction returns the largest intensity when it is not
    negative. *)
Lemma rawMax_is_peak (data : list ScatteringData) (peak : ScatteringData) :
  In peak data -> 0 <= intensity peak ->
  (forall d, In d data -> intensity d <= intensity peak) ->
  rawMax data = intensity peak.
Proof.
  intros Hpeak Hpos Hupper.
  pose proof (rawMax_upper data peak Hpeak) as Hlow.
  destruct (rawMax_fold_attained data 0) as [H0 | [d [Hd Hmax]]].
  - change (rawMax data = 0) in H0. lra.
  - change (intensity d = rawMax data) in Hmax. specialize (Hupper d Hd). lra.
Qed.

Lemma scenario_rawMax :
  rawMax (map (fun k =>
                 mkScatteringData (IZR (Z.of_nat k - 90))
                   (harveyShack 0 1 (gParameter 0.8 0.5 0)
                      (IZR (Z.of_nat k - 90))))
            (seq 0 181))
  = harveyShack 0 1 (gParameter 0.8 0.5 0) 0.
Proof.
  apply (rawMax_is_peak _
           (mkScatteringData 0 (harveyShack 0 1 (gParameter 0.8 0.5 0) 0))).
  - apply in_map_iff. exists 90%nat. split.
    + reflexivity.
    + apply in_seq. lia.
  - left. apply harveyShack_peak_pos, scenario_g_pos.
  - intros d Hd. apply in_map_iff in Hd as [k [<- Hk]].
    apply in_seq in Hk. cbn [intensity].
    destruct (Req_dec_T (IZR (Z.of_nat k - 90)) 0) as [-> | Hne]; [lra |].
    left. apply harveyShack_peak;
      [apply scenario_g_pos | apply scenario_angle_range; lia | exact Hne].
Qed.

(** The distribution of the scenario, sample by sample. *)
Lemma scenario_shape (fuel : nat) :
  (181 <= fuel)%nat ->
  calculateScattering fuel 0.8 0.5 0 "Harvey-Shack" 1 0.9 1
  = Some (map (fun k =>
                 mkScatteringData (IZR (Z.of_nat k - 90))
                   (harveyShack 0 1 (gParameter 0.8 0.5 0)
                      (IZR (Z.of_nat k - 90))
                    / harveyShack 0 1 (gParameter 0.8 0.5 0) 0 * 0.9))
            (seq 0 181)).
Proof.
  intro Hfuel. unfold calculateScattering.
  rewrite scenario_raw by exact Hfuel. f_equal.
  unfold normalize. rewrite scenario_rawMax, map_map.
  rewrite divisor_nonzero
    by (pose proof (harveyShack_peak_pos _ scenario_g_pos); lra).
  reflexivity.
Qed.

(** C1 on the end-to-end scenario: the raw maximum is not 0, it is the
    divisor, and a returned sample has the intensity 0.9. *)
Lemma normalized_peak_is_reflectivity_witness :
  exists raw out o,
    rawData 181 0.8 0.5 0 "Harvey-Shack" 1 1 = Some raw
    /\ calculateScattering 181 0.8 0.5 0 "Harvey-Shack" 1 0.9 1 = Some out
    /\ rawMax raw <> 0
    /\ divisor (rawMax raw) = rawMax raw
    /\ In o out /\ intensity o = 0.9.
Proof.
  destruct (normalized_peak_is_reflectivity 181 0.8 0.5 0 "Harvey-Shack"
              1 0.9 1)
    as [raw [out [Hraw [Hcall [_ [_ [_ [_ [_ [Hpeak [_ [Hdiv _]]]]]]]]]]]].
  - lra.
  - rewrite sampleCount_1. apply Nat.le_refl.
  - assert (HM : rawMax raw <> 0).
    { pose proof (scenario_raw 181 (Nat.le_refl 181)) as Hshape.
      rewrite Hraw in Hshape.
      apply (f_equal (fun o => match o with Some l => l | None => [] end))
        in Hshape.
      rewrite Hshape, scenario_rawMax.
      pose proof (harveyShack_peak_pos _ scenario_g_pos) as Hpos.
      lra. }
    destruct (Hpeak HM) as [[o [Ho Hval]] _].
    exists raw, out, o.
    split; [exact Hraw |]. split; [exact Hcall |]. split; [exact HM |].
    split; [apply Hdiv; exact HM |]. split; [exact Ho | exact Hval].
Defined.

(** C7: with [ra = 0.8], wavelength 0.5, incidence 0, Harvey-Shack,
    step 1, reflectivity 0.9 and slope factor 1 the distribution has 181
    samples at the integer angles -90 .. 90; the sample at angle 0 has
    intensity 0.9 and every other sample has less; and the intensity
    falls strictly from one sample to the next moving away from angle 0
    on either side. *)
Theorem harvey_shack_scenario (fuel : nat) :
  (181 <= fuel)%nat ->
  exists data,
    calculateScattering fuel 0.8 0.5 0 "Harvey-Shack" 1 0.9 1 = Some data
    /\ List.length data = 181%nat
    /\ map angle data = map (fun k => IZR (Z.of_nat k - 90)) (seq 0 181)
    /\ (exists peak,
          nth_error data 90 = Some peak
          /\ angle peak = 0 /\ intensity peak = 0.9)
    /\ (forall d, In d data -> angle d <> 0 -> intensity d < 0.9)
    /\ (forall d1 d2, In d1 data -> In d2 data ->
          0 <= angle d1 < angle d2 -> intensity d2 < intensity d1)
    /\ (forall d1 d2, In d1 data -> In d2 data ->
          angle d2 < angle d1 <= 0 -> intensity d2 < intensity d1).
Proof.
  intro Hfuel. eexists. split; [apply scenario_shape; exact Hfuel |].
  set (h := harveyShack 0 1 (gParameter 0.8 0.5 0)).
  pose proof (harveyShack_peak_pos _ scenario_g_pos) as Hh0. fold h in Hh0.
  assert (Hscale : forall u v, u < v -> u / h 0 * 0.9 < v / h 0 * 0.9).
  { intros u v Huv. apply Rmult_lt_compat_r; [lra |].
    unfold Rdiv. apply Rmult_lt_compat_r; [| exact Huv].
    apply Rinv_0_lt_compat. exact Hh0. }
  assert (Hunit : h 0 / h 0 * 0.9 = 0.9).
  { unfold Rdiv. rewrite Rinv_r by lra. lra. }
  assert (Hin : forall d,
             In d (map (fun k =>
                          mkScatteringData (IZR (Z.of_nat k - 90))
                            (h (IZR (Z.of_nat k - 90)) / h 0 * 0.9))
                     (seq 0 181)) ->
             -90 <= angle d <= 90
             /\ intensity d = h (angle d) / h 0 * 0.9).
  { intros d Hd. apply in_map_iff in Hd as [k [<- Hk]]. apply in_seq in Hk.
    cbn [angle intensity]. split; [apply scenario_angle_range; lia |].
    reflexivity. }
  split; [rewrite length_map, length_seq; reflexivity |].
  split; [rewrite map_map; reflexivity |].
  split; [| split; [| split]].
  - eexists. split; [rewrite nth_error_map, nth_error_seq; reflexivity |].
    cbn [angle intensity]. split; [reflexivity |].
    change (IZR (Z.of_nat 90 - 90)) with 0. exact Hunit.
  - intros d Hd Hne. destruct (Hin d Hd) as [Hrange ->].
    rewrite <- Hunit at 2. apply Hscale. apply harveyShack_peak;
      [apply scenario_g_pos | exact Hrange | exact Hne].
  - intros d1 d2 Hd1 Hd2 Hord.
    destruct (Hin d1 Hd1) as [Hr1 ->]. destruct (Hin d2 Hd2) as [Hr2 ->].
    apply Hscale. apply harveyShack_decreasing;
      [apply scenario_g_pos | lra | lra | lra].
  - intros d1 d2 Hd1 Hd2 Hord.
    destruct (Hin d1 Hd1) as [Hr1 ->]. destruct (Hin d2 Hd2) as [Hr2 ->].
    apply Hscale. unfold h.
    rewrite <- (harveyShack_even _ (angle d2)), <- (harveyShack_even _ (angle d1)).
    apply harveyShack_decreasing;
      [apply scenario_g_pos | lra | lra | lra].
Qed.

(** C7 with exactly 181 iterations allowed. *)
Lemma harvey_shack_scenario_witness :
  exists data,
    calculateScattering 181 0.8 0.5 0 "Harvey-Shack" 1 0.9 1 = Some data
    /\ List.length data = 181%nat.
Proof.
  destruct (harvey_shack_scenario 181 (Nat.le_refl 181))
    as [data [Hcall [Hlen _]]].
  exists data. split; [exact Hcall | exact Hlen].
Defined.

(** * Further properties of the module *)

(** ** Termination of the sweep *)

Lemma sweep_fuel_mono (body : R -> ScatteringData) (step : R) :
  forall (fuel fuel' : nat) (a : R) (data : list ScatteringData),
    sweep fuel body step a = Some data -> (fuel <= fuel')%nat ->
    sweep fuel' body step a = Some data.
Proof.
  induction fuel as [| fuel IH]; intros fuel' a data; simpl;
    destruct (Rle_dec a 90) as [Ha | Ha]; try discriminate.
  - intros H _. destruct fuel'; simpl;
      destruct (Rle_dec a 90); try contradiction; exact H.
  - destruct (sweep fuel body step (a + step)) as [data' |] eqn:E;
      [| discriminate].
    intros H Hle. destruct fuel' as [| fuel']; [lia |]. simpl.
    destruct (Rle_dec a 90); [| contradiction].
    rewrite (IH fuel' (a + step) data' E) by lia. exact H.
  - intros H _. destruct fuel'; simpl;
      destruct (Rle_dec a 90); try contradiction; exact H.
Qed.

(** X1: with a step that is zero or negative the loop variable never
    passes 90 and the call does not return, whatever the number of
    iterations allowed. *)
Theorem nonpositive_step_never_returns (fuel : nat) (ra lambda thetaInc : R)
  (modelType : string) (step reflectivity slopeFactor : R) :
  step <= 0 ->
  calculateScattering fuel ra lambda thetaInc modelType step reflectivity
    slopeFactor = None.
Proof.
  intro Hstep. unfold calculateScattering, rawData. cbv zeta.
  rewrite sweep_diverges by lra. reflexivity.
Qed.

(** X1 at step 0 with a thousand iterations allowed. *)
Lemma nonpositive_step_never_returns_witness :
  calculateScattering 1000 0.8 0.5 0 "Auto" 0 0.9 1 = None.
Proof.
  apply nonpositive_step_never_returns. lra.
Defined.

Lemma Zfloor_quotient (s : Z) :
  (0 < s)%Z -> Zfloor (180 / IZR s) = (180 / s)%Z.
Proof.
  intro Hs. apply Zfloor_eq.
  assert (Hpos : 0 < IZR s) by (apply IZR_lt; exact Hs).
  pose proof (Z.div_mod 180 s ltac:(lia)) as Hdiv.
  pose proof (Z.mod_pos_bound 180 s Hs) as [Hr0 Hr1].
  apply (f_equal IZR) in Hdiv. rewrite plus_IZR, mult_IZR in Hdiv.
  apply IZR_le in Hr0. apply IZR_lt in Hr1.
  set (q := IZR (180 / s)) in *. set (r := IZR (180 mod s)) in *.
  assert (Hq : 180 / IZR s = q + r / IZR s).
  { rewrite Hdiv. field. lra. }
  rewrite Hq.
  assert (Hfrac : 0 <= r / IZR s < 1).
  { split.
    - apply Rmult_le_pos; [exact Hr0 | left; apply Rinv_0_lt_compat; exact Hpos].
    - apply (Rmult_lt_reg_r (IZR s)); [exact Hpos |].
      unfold Rdiv. rewrite Rmult_assoc, Rinv_l by lra. lra. }
  lra.
Qed.

(** X2: for a step that is a positive whole number [s] the body of the
    loop runs exactly [180 / s + 1] times, the quotient being the integer
    one: the call returns when that many iterations are allowed and not
    with fewer, and the distribution has that many samples. *)
Theorem sweep_runs_sampleCount_times (fuel : nat) (ra lambda thetaInc : R)
  (modelType : string) (step reflectivity slopeFactor : R) (s : Z) :
  step = IZR s -> (0 < s)%Z ->
  ((sampleCount step <= fuel)%nat ->
   exists data,
     calculateScattering fuel ra lambda thetaInc modelType step reflectivity
       slopeFactor = Some data
     /\ List.length data = sampleCount step)
  /\ ((fuel < sampleCount step)%nat ->
      calculateScattering fuel ra lambda thetaInc modelType step reflectivity
        slopeFactor = None)
  /\ Z.of_nat (sampleCount step) = (180 / s + 1)%Z.
Proof.
  intros Hs Hpos.
  assert (Hstep : 0 < step) by (rewrite Hs; apply IZR_lt; exact Hpos).
  split; [| split].
  - intro Hfuel.
    destruct (calculateScattering_returns fuel ra lambda thetaInc modelType
                step reflectivity slopeFactor Hstep Hfuel)
      as [raw [Hraw Hcall]].
    eexists. split; [exact Hcall |].
    rewrite rawData_returns in Hraw by assumption.
    apply (f_equal (fun o => match o with Some l => List.length l | None => O end))
      in Hraw.
    rewrite length_map, length_seq in Hraw.
    unfold normalize. rewrite length_map. symmetry. exact Hraw.
  - intro Hfuel. unfold calculateScattering, rawData. cbv zeta.
    destruct (sweep fuel _ step (-90)) as [data |] eqn:E; [exfalso | reflexivity].
    pose proof (sweep_length _ _ _ _ _ E) as Hlen.
    apply (sweep_fuel_mono _ _ fuel (sampleCount step)) in E; [| lia].
    rewrite sweep_from_minus_90 in E by (assumption || apply Nat.le_refl).
    apply (f_equal (fun o => match o with Some l => List.length l | None => O end))
      in E.
    rewrite length_map, length_seq in E. lia.
  - unfold sampleCount. rewrite Hs, Zfloor_quotient by exact Hpos.
    assert (Hz : (0 <= 180 / s)%Z) by (apply Z.div_pos; lia).
    lia.
Qed.

(** X2 at step 1: 181 iterations are enough, 180 are not. *)
Lemma sweep_runs_sampleCount_times_witness :
  (exists data,
      calculateScattering 181 0.8 0.5 0 "Auto" 1 0.9 1 = Some data
      /\ List.length data = sampleCount 1)
  /\ calculateScattering 180 0.8 0.5 0 "Auto" 1 0.9 1 = None.
Proof.
  destruct (sweep_runs_sampleCount_times 181 0.8 0.5 0 "Auto" 1 0.9 1 1)
    as [Hret _]; [reflexivity | lia |].
  destruct (sweep_runs_sampleCount_times 180 0.8 0.5 0 "Auto" 1 0.9 1 1)
    as [_ [Hnone _]]; [reflexivity | lia |].
  split.
  - apply Hret. rewrite sampleCount_1. apply Nat.le_refl.
  - apply Hnone. rewrite sampleCount_1. apply Nat.lt_succ_diag_r.
Defined.

(** ** Range of the returned intensities *)

Lemma normalize_range (reflectivity : R) (data : list ScatteringData) :
  0 <= reflectivity ->
  (forall d, In d data -> 0 <= intensity d) ->
  forall o, In o (normalize reflectivity data) ->
            0 <= intensity o <= reflectivity.
Proof.
  intros Hrefl Hpos o Ho. unfold normalize in Ho.
  apply in_map_iff in Ho as [d [<- Hd]]. cbn [intensity].
  pose proof (Hpos d Hd) as Hd0.
  pose proof (rawMax_upper data d Hd) as HdM.
  destruct (Req_dec_T (rawMax data) 0) as [HM | HM].
  - rewrite HM, divisor_zero. replace (intensity d) with 0 by lra.
    unfold Rdiv. rewrite !Rmult_0_l. lra.
  - rewrite divisor_nonzero by exact HM.
    assert (Hq : intensity d / rawMax data * rawMax data = intensity d)
      by (field; exact HM).
    set (q := intensity d / rawMax data) in *.
    assert (Hq1 : q <= 1).
    { destruct (Rle_dec q 1) as [H | H]; [exact H | exfalso; nra]. }
    assert (Hq0 : 0 <= q).
    { destruct (Rle_dec 0 q) as [H | H]; [exact H | exfalso; nra]. }
    nra.
Qed.

(** X3: for a positive step, a reflectivity that is not negative and a
    slope factor that is not zero (so that nothing is divided by zero),
    every returned intensity lies between 0 and the reflectivity,
    whatever the model and the other parameters. *)
Theorem returned_intensity_range (fuel : nat) (ra lambda thetaInc : R)
  (modelType : string) (step reflectivity slopeFactor : R) :
  slopeFactor <> 0 ->
  0 < step -> (sampleCount step <= fuel)%nat -> 0 <= reflectivity ->
  exists data,
    calculateScattering fuel ra lambda thetaInc modelType step reflectivity
      slopeFactor = Some data
    /\ forall d, In d data -> 0 <= intensity d <= reflectivity.
Proof.
  intros _ Hstep Hfuel Hrefl.
  destruct (calculateScattering_returns fuel ra lambda thetaInc modelType step
              reflectivity slopeFactor Hstep Hfuel) as [raw [Hraw Hcall]].
  eexists. split; [exact Hcall |].
  apply normalize_range; [exact Hrefl |].
  apply (rawData_nonneg fuel ra lambda thetaInc modelType step slopeFactor raw
           Hstep Hfuel Hraw).
Qed.

(** X3 at the default parameters of the application and step 1. *)
Lemma returned_intensity_range_witness :
  exists data,
    calculateScattering 181 0.8 0.5 0 "Auto" 1 0.9 1 = Some data
    /\ forall d, In d data -> 0 <= intensity d <= 0.9.
Proof.
  apply returned_intensity_range.
  - lra.
  - lra.
  - rewrite sampleCount_1. apply Nat.le_refl.
  - lra.
Defined.

(** ** The Rayleigh-Rice branch *)

Lemma exp_neg_square_le_1 (u : R) : 0 < exp (- (u * u)) <= 1.
Proof.
  split; [apply exp_pos |]. apply exp_neg_le_1. nra.
Qed.

Lemma rayleighRice_lit (ra lambda thetaInc step g a : R) :
  let peakWidth :=
    Rmax (2 * step) (0.2 * lambda / Rmax 0.00001 (ra * 1000)) in
  rayleighRice ra lambda thetaInc step g a
  = exp (- g) * exp (- (Rabs (a - thetaInc) / peakWidth) ^ 2)
    + 0.05 * (1 - exp (- g)) * cos (a * PI / 180) ^ 4.
Proof.
  cbv zeta. unfold rayleighRice. cbv zeta. rewrite Math_pow_2, Math_pow_4.
  assert (Hwidth : Rmax (step * 2) (0.2 * (lambda / Rmax 0.00001 (ra * 1000)))
                   = Rmax (2 * step) (0.2 * lambda / Rmax 0.00001 (ra * 1000)))
    by (f_equal; unfold Rdiv; ring).
  rewrite Hwidth.
  set (u := Rabs (a - thetaInc)
            / Rmax (2 * step) (0.2 * lambda / Rmax 0.00001 (ra * 1000))).
  replace (u ^ 2) with (u * u) by ring. ring.
Qed.

Lemma cos_pow_4_range (u : R) : 0 <= cos u ^ 4 <= 1.
Proof.
  pose proof (COS_bound u) as [Hlo Hhi].
  assert (H2 : 0 <= cos u * cos u <= 1) by nra.
  replace (cos u ^ 4) with ((cos u * cos u) * (cos u * cos u)) by ring.
  nra.
Qed.

Lemma rayleighRice_range (ra lambda thetaInc step g a : R) :
  0 <= g -> 0 <= rayleighRice ra lambda thetaInc step g a <= 1.
Proof.
  intro Hg. rewrite rayleighRice_lit. cbv zeta.
  set (u := Rabs (a - thetaInc)
            / Rmax (2 * step) (0.2 * lambda / Rmax 0.00001 (ra * 1000))).
  replace (u ^ 2) with (u * u) by ring.
  pose proof (exp_neg_square_le_1 u) as [Hs0 Hs1].
  pose proof (exp_pos (- g)) as He0. pose proof (exp_neg_le_1 g Hg) as He1.
  pose proof (cos_pow_4_range (a * PI / 180)) as [Hc0 Hc1].
  assert (0 < exp (- g) * exp (- (u * u)) <= exp (- g)) by nra.
  assert (0 <= 0.05 * (1 - exp (- g)) * cos (a * PI / 180) ^ 4
          <= 0.05 * (1 - exp (- g))) by nra.
  lra.
Qed.



(** ** Range of the two models with a specular lobe *)

Lemma Math_pow_1_5_one : Math_pow 1 1.5 = 1.
Proof.
  rewrite Math_pow_1_5_pos by lra. unfold Rpower.
  rewrite ln_1, Rmult_0_r. apply exp_0.
Qed.

Lemma Math_pow_1_5_le_1 (b : R) : b <= 1 -> Math_pow b 1.5 <= 1.
Proof.
  intro Hb. destruct (Rle_dec b 0) as [Hneg | Hpos].
  - rewrite Math_pow_1_5_zero by exact Hneg. lra.
  - destruct Hb as [Hlt | ->]; [| rewrite Math_pow_1_5_one; lra].
    rewrite <- Math_pow_1_5_one. left. apply Math_pow_1_5_lt; lra.
Qed.

Lemma harveyShack_range (thetaInc slopeFactor g a : R) :
  0 <= g -> 0 <= harveyShack thetaInc slopeFactor g a <= 1.
Proof.
  intro Hg. rewrite harveyShack_lit.
  set (u := Rabs (a - thetaInc) / (1.5 * slopeFactor)).
  replace (u ^ 2) with (u * u) by ring.
  pose proof (exp_neg_square_le_1 u) as [Hs0 Hs1].
  pose proof (exp_pos (- g)) as He0. pose proof (exp_neg_le_1 g Hg) as He1.
  pose proof (Math_pow_1_5_nonneg (cos (a * PI / 180))) as Hp0.
  pose proof (Math_pow_1_5_le_1 (cos (a * PI / 180))
                (proj2 (COS_bound (a * PI / 180)))) as Hp1.
  assert (0 < exp (- g) * exp (- (u * u)) <= exp (- g)) by nra.
  assert (0 <= 0.3 * (1 - exp (- g)) * Math_pow (cos (a * PI / 180)) 1.5
          <= 0.3 * (1 - exp (- g))) by nra.
  lra.
Qed.

(** The stored intensity of the two models with a specular lobe. *)
Lemma lobed_sample_range (activeModel : string)
  (ra lambda thetaInc step slopeFactor g a : R) :
  activeModel <> "Beckmann" -> 0 <= g ->
  0 <= intensity (sample activeModel ra lambda thetaInc step slopeFactor g a)
  <= 1.
Proof.
  intros HB Hg. unfold sample, modelIntensity. cbn [intensity].
  destruct (String.eqb_spec activeModel "Rayleigh-Rice") as [_ | _].
  - pose proof (rayleighRice_range ra lambda thetaInc step g a Hg).
    rewrite Rmax_right by lra. assumption.
  - apply String.eqb_neq in HB. rewrite HB.
    pose proof (harveyShack_range thetaInc slopeFactor g a Hg).
    rewrite Rmax_right by lra. assumption.
Qed.

(** X5: when the active model is Rayleigh-Rice or Harvey-Shack (any
    model but Beckmann), with a slope factor that is not zero, every
    intensity before normalization lies between 0 and 1, and so does
    their maximum, the number the distribution is divided by unless it
    is 0. *)
Theorem lobed_models_raw_range (fuel : nat) (ra lambda thetaInc : R)
  (modelType : string) (step slopeFactor : R) :
  resolveModel modelType (gParameter ra lambda thetaInc) <> "Beckmann" ->
  slopeFactor <> 0 -> 0 < step -> (sampleCount step <= fuel)%nat ->
  exists raw,
    rawData fuel ra lambda thetaInc modelType step slopeFactor = Some raw
    /\ (forall d, In d raw -> 0 <= intensity d <= 1)
    /\ 0 <= rawMax raw <= 1.
Proof.
  intros Hmodel _ Hstep Hfuel.
  destruct (calculateScattering_returns fuel ra lambda thetaInc modelType step
              1 slopeFactor Hstep Hfuel) as [raw [Hraw _]].
  exists raw. split; [exact Hraw |].
  destruct (rawData_nonneg fuel ra lambda thetaInc modelType step slopeFactor
              raw Hstep Hfuel Hraw) as [Hne Hpos].
  assert (Hrange : forall d, In d raw -> 0 <= intensity d <= 1).
  { rewrite rawData_returns in Hraw by assumption.
    apply (f_equal (fun o => match o with Some l => l | None => [] end)) in Hraw.
    subst raw. intros d Hd. apply in_map_iff in Hd as [k [<- _]].
    apply lobed_sample_range; [exact Hmodel | apply gParameter_nonneg]. }
  destruct (rawMax_attained raw Hne Hpos) as [peak [Hin Hmax]].
  pose proof (Hrange peak Hin) as Hpeak.
  split; [exact Hrange | lra].
Qed.

(** X5 for a requested Harvey-Shack model at step 1. *)
Lemma lobed_models_raw_range_witness :
  exists raw,
    rawData 181 0.8 0.5 30 "Harvey-Shack" 1 1 = Some raw
    /\ 0 <= rawMax raw <= 1.
Proof.
  destruct (lobed_models_raw_range 181 0.8 0.5 30 "Harvey-Shack" 1 1)
    as [raw [Hraw [_ Hmax]]].
  - discriminate.
  - lra.
  - lra.
  - rewrite sampleCount_1. apply Nat.le_refl.
  - exists raw. split; [exact Hraw | exact Hmax].
Defined.

(** ** Symmetry at normal incidence *)

Lemma toFixed4_odd (v : R) : toFixed4 (- v) = - toFixed4 v.
Proof.
  unfold toFixed4. rewrite Rabs_Ropp.
  destruct (Rle_dec (10 ^ 21) (Rabs v)) as [_ | _]; [reflexivity |].
  destruct (Rlt_dec (- v) 0) as [Hn | Hn]; destruct (Rlt_dec v 0) as [Hv | Hv];
    try lra.
  assert (Hz : v = 0) by lra. subst v.
  rewrite Rabs_R0, Rmult_0_l, Rplus_0_l.
  replace (Zfloor (/ 2)) with 0%Z by (symmetry; apply Zfloor_eq; lra).
  unfold Rdiv. rewrite Rmult_0_l. ring.
Qed.

Lemma radians_opp (a : R) : - a * PI / 180 = - (a * PI / 180).
Proof. unfold Rdiv. ring. Qed.

Lemma modelIntensity_even (activeModel : string)
  (ra lambda step slopeFactor g a : R) :
  modelIntensity activeModel ra lambda 0 step slopeFactor g (- a)
  = modelIntensity activeModel ra lambda 0 step slopeFactor g a.
Proof.
  unfold modelIntensity.
  destruct (activeModel =? "Rayleigh-Rice");
    [| destruct (activeModel =? "Beckmann")].
  - rewrite !rayleighRice_lit. cbv zeta.
    replace (- a - 0) with (- (a - 0)) by ring.
    rewrite Rabs_Ropp, radians_opp, cos_neg. reflexivity.
  - unfold beckmann. cbv zeta. rewrite radians_opp, cos_neg.
    destruct (Rgt_dec (cos (a * PI / 180)) 0) as [_ | _]; [| reflexivity].
    rewrite !Math_pow_2.
    replace (- (a * PI / 180) - 0 * PI / 180)
      with (- (a * PI / 180 - 0 * PI / 180)) by (unfold Rdiv; ring).
    rewrite tan_neg.
    replace (- tan (a * PI / 180 - 0 * PI / 180)
             * - tan (a * PI / 180 - 0 * PI / 180))
      with (tan (a * PI / 180 - 0 * PI / 180)
            * tan (a * PI / 180 - 0 * PI / 180)) by ring.
    reflexivity.
  - rewrite !harveyShack_lit.
    replace (- a - 0) with (- (a - 0)) by ring.
    rewrite Rabs_Ropp, radians_opp, cos_neg. reflexivity.
Qed.

Lemma sample_mirror (activeModel : string)
  (ra lambda step slopeFactor g a : R) :
  let d := sample activeModel ra lambda 0 step slopeFactor g a in
  sample activeModel ra lambda 0 step slopeFactor g (- a)
  = mkScatteringData (- angle d) (intensity d).
Proof.
  cbv zeta. unfold sample. cbn [angle intensity].
  rewrite toFixed4_odd, modelIntensity_even. reflexivity.
Qed.

(** X7: at incidence 0, with a step that is a whole number [s] dividing
    180 and a slope factor that is not zero, the returned distribution
    is symmetric about angle 0 for every model:
    it has [180 / s + 1] samples, and the sample of index [k] and the
    sample of index [180 / s - k] have opposite angles and the same
    intensity. *)
Theorem normal_incidence_symmetry (fuel : nat) (ra lambda : R)
  (modelType : string) (step reflectivity slopeFactor : R) (s : Z) (n : nat) :
  step = IZR s -> (0 < s)%Z -> (s * Z.of_nat n = 180)%Z ->
  slopeFactor <> 0 -> (sampleCount step <= fuel)%nat ->
  exists data,
    calculateScattering fuel ra lambda 0 modelType step reflectivity
      slopeFactor = Some data
    /\ List.length data = S n
    /\ forall k, (k <= n)%nat ->
         exists d d',
           nth_error data k = Some d
           /\ nth_error data (n - k) = Some d'
           /\ angle d' = - angle d
           /\ intensity d' = intensity d.
Proof.
  intros Hs Hpos Hdiv _ Hfuel.
  assert (Hstep : 0 < step) by (rewrite Hs; apply IZR_lt; exact Hpos).
  assert (Hn : INR n * step = 180).
  { rewrite Hs, INR_IZR_INZ, <- mult_IZR. f_equal. lia. }
  assert (Hcount : sampleCount step = S n).
  { assert (Hlt : (n < sampleCount step)%nat).
    { apply sampleCount_iff; [assumption |]. unfold sweepAngle. lra. }
    assert (Hnlt : ~ (S n < sampleCount step)%nat).
    { intro H. apply sampleCount_iff in H; [| assumption].
      unfold sweepAngle in H. rewrite S_INR in H. lra. }
    lia. }
  unfold calculateScattering.
  rewrite rawData_returns by assumption. rewrite Hcount.
  eexists. split; [reflexivity |].
  unfold normalize. rewrite map_map, length_map, length_seq.
  split; [reflexivity |].
  intros k Hk. eexists. eexists.
  split; [| split].
  - rewrite nth_error_map, nth_error_seq.
    destruct (Nat.ltb_spec k (S n)) as [_ | H]; [reflexivity | lia].
  - rewrite nth_error_map, nth_error_seq.
    destruct (Nat.ltb_spec (n - k) (S n)) as [_ | H]; [reflexivity | lia].
  - cbn [angle intensity Nat.add].
    assert (Hmirror : sweepAngle step (n - k) = - sweepAngle step k).
    { unfold sweepAngle. rewrite minus_INR by exact Hk. lra. }
    rewrite Hmirror, sample_mirror. cbn [angle intensity].
    split; reflexivity.
Qed.

(** X7 at step 1 and incidence 0 under 'Auto'. *)
Lemma normal_incidence_symmetry_witness :
  exists data,
    calculateScattering 181 0.8 0.5 0 "Auto" 1 0.9 1 = Some data
    /\ List.length data = 181%nat.
Proof.
  destruct (normal_incidence_symmetry 181 0.8 0.5 "Auto" 1 0.9 1 1 180)
    as [data [Hcall [Hlen _]]].
  - reflexivity.
  - lia.
  - reflexivity.
  - lra.
  - rewrite sampleCount_1. apply Nat.le_refl.
  - exists data. split; [exact Hcall | exact Hlen].
Defined.

(** ** Size of the rounding to four decimals *)

Lemma toFixed4_error (v : R) : Rabs (toFixed4 v - v) <= 0.00005.
Proof.
  unfold toFixed4.
  destruct (Rle_dec (10 ^ 21) (Rabs v)) as [_ | _].
  - replace (v - v) with 0 by ring. rewrite Rabs_R0. lra.
  - rewrite pow_10_4.
    pose proof (Zfloor_bound (Rabs v * 10000 + / 2)) as [Hlo Hhi].
    destruct (Rlt_dec v 0) as [Hneg | Hpos].
    + rewrite (Rabs_left v Hneg) in Hlo, Hhi |- *.
      apply Rabs_le. lra.
    + rewrite (Rabs_right v) in Hlo, Hhi |- * by lra.
      apply Rabs_le. lra.
Qed.



(** X9: each width returned by [calculateEnergyConcentration] is within
    0.00005 of the product of its counter and the step. *)
Theorem energy_width_accuracy (data : list ScatteringData) (step : R) :
  totalIntensity data <> 0 ->
  let c := energyCounts data in
  let stats := calculateEnergyConcentration data step in
  Rabs (e50 stats - INR (e50Count c) * step) <= 0.00005
  /\ Rabs (e90 stats - INR (e90Count c) * step) <= 0.00005
  /\ Rabs (e99 stats - INR (e99Count c) * step) <= 0.00005.
Proof.
  intro Htotal. cbv zeta. unfold calculateEnergyConcentration. cbv zeta.
  destruct (Req_dec_T (totalIntensity data) 0); [contradiction |].
  cbn [e50 e90 e99]. repeat split; apply toFixed4_error.
Qed.

(** X9 on one sample of intensity 1 at step 0.00001. *)
Lemma energy_width_accuracy_witness :
  let data := [mkScatteringData 0 1] in
  Rabs (e50 (calculateEnergyConcentration data 0.00001)
        - INR (e50Count (energyCounts data)) * 0.00001) <= 0.00005.
Proof.
  cbv zeta.
  destruct (energy_width_accuracy [mkScatteringData 0 1] 0.00001)
    as [H50 _].
  - unfold totalIntensity. simpl. lra.
  - exact H50.
Defined.

(** ** What the energy statistics depend on *)



(** ** Range of the generated heights *)

Lemma Rabs_le_bounds (a b : R) : Rabs a <= b -> - b <= a <= b.
Proof.
  unfold Rabs. destruct (Rcase_abs a); lra.
Qed.

Section BoundedDraws.

Variable random : nat -> R.

(** [Math.random()] returns a number from 0 up to, not including, 1. *)
Hypothesis random_range : forall k, 0 <= random k < 1.

Lemma profileLoop_bound (rq : R) (n : nat) :
  0 <= rq ->
  forall (i : Z) (prev : R) (k : nat),
    Rabs prev <= 2 * rq ->
    forall p, In p (fst (profileLoop random rq 0.15 n i prev k)) ->
              Rabs (Point.y p) <= 2 * rq.
Proof.
  intro Hrq. induction n as [| n IH]; intros i prev k Hprev p Hp.
  - simpl in Hp. contradiction.
  - simpl profileLoop in Hp.
    set (val := prev * (1 - 0.15) + (random k - 0.5) * 4 * rq * 0.15) in *.
    assert (Hval : Rabs val <= 2 * rq).
    { pose proof (random_range k) as [Hlo Hhi].
      apply Rabs_le. apply Rabs_le_bounds in Hprev. unfold val. split; nra. }
    destruct (profileLoop random rq 0.15 n (i + 1)%Z val (S k))
      as [points k'] eqn:E.
    cbn [fst] in Hp. destruct Hp as [<- | Hp].
    + exact Hval.
    + apply (IH (i + 1)%Z val (S k) Hval). rewrite E. exact Hp.
Qed.

(** X13: with draws in [0, 1) and [ra >= 0], every height of the
    profile is at most [2.5 ra] in absolute value: the damped
    recurrence never leaves the range of its noise. *)
Theorem surface_profile_bounded (k : nat) (ra : R) (length : Z) :
  0 <= ra ->
  forall p, In p (fst (generateSurfaceProfile random k ra length)) ->
            Rabs (Point.y p) <= 2.5 * ra.
Proof.
  intros Hra p Hp. unfold generateSurfaceProfile in Hp. cbv zeta in Hp.
  replace (2.5 * ra) with (2 * (ra * 1.25)) by lra.
  apply (profileLoop_bound (ra * 1.25) (Z.to_nat length) ltac:(lra)
           0%Z 0 k); [| exact Hp].
  rewrite Rabs_R0. lra.
Qed.

Lemma raw_cell_bound (rq : R) (size k : nat) (p : Z * Z) :
  0 <= rq ->
  (0 <= fst p < Z.of_nat size)%Z -> (0 <= snd p < Z.of_nat size)%Z ->
  Rabs (cell (fst (fillGrid random rq size size k)) (fst p) (snd p)) <= rq.
Proof.
  intros Hrq Hi Hj.
  rewrite <- (Z2Nat.id (fst p)), <- (Z2Nat.id (snd p)) by lia.
  rewrite fillGrid_cell by lia.
  pose proof (random_range
                (k + Z.to_nat (fst p) * size + Z.to_nat (snd p))%nat)
    as [Hlo Hhi].
  apply Rabs_le. split; nra.
Qed.

Lemma cellSum_bound (grid : list (list R)) (bound : R)
  (cells : list (Z * Z)) :
  (forall p, In p cells -> Rabs (cell grid (fst p) (snd p)) <= bound) ->
  Rabs (cellSum grid cells) <= INR (List.length cells) * bound.
Proof.
  induction cells as [| p cells IH]; intro Hall.
  - simpl. rewrite Rabs_R0. lra.
  - cbn [cellSum fold_right List.length]. rewrite S_INR.
    fold (cellSum grid cells).
    pose proof (Hall p (or_introl eq_refl)) as Hp.
    assert (Hrest : Rabs (cellSum grid cells) <= INR (List.length cells) * bound).
    { apply IH. intros q Hq. apply Hall. right. exact Hq. }
    eapply Rle_trans; [apply Rabs_triang |]. lra.
Qed.

Lemma neighbourhood_self (size i j : Z) :
  (0 <= i < size)%Z -> (0 <= j < size)%Z ->
  In (i, j) (neighbourhood size i j).
Proof.
  intros Hi Hj. unfold neighbourhood. apply filter_In. split.
  - unfold block, offsets. simpl. do 4 right. left.
    f_equal; lia.
  - unfold inBounds. cbn [fst snd]. rewrite !andb_true_iff.
    repeat split; try (apply Z.geb_le; lia); apply Z.ltb_lt; lia.
Qed.

(** X14: for an integer [size] that is not negative the returned grid
    has [size] rows of [size] cells and [size * size] draws are made;
    with draws in [0, 1) and [ra >= 0] every cell of it is at most
    [1.25 ra] in absolute value, as the raw cells are. *)
Theorem height_grid_shape_and_range (k : nat) (ra : R) (size : Z) :
  (0 <= size)%Z -> 0 <= ra ->
  let n := Z.to_nat size in
  exists out,
    generateSurfaceProfile3D random k ra size = (out, (k + n * n)%nat)
    /\ List.length out = n
    /\ forall row, In row out ->
         List.length row = n
         /\ forall v, In v row -> Rabs v <= 1.25 * ra.
Proof.
  intros Hsize Hra n.
  unfold generateSurfaceProfile3D. cbv zeta. fold n.
  destruct (fillGrid random (ra * 1.25) n n k) as [grid k'] eqn:E.
  assert (Hk : k' = (k + n * n)%nat).
  { rewrite fillGrid_spec in E. injection E as _ Hk'. symmetry. exact Hk'. }
  assert (Hgrid : grid = fst (fillGrid random (ra * 1.25) n n k))
    by (rewrite E; reflexivity).
  subst k'. eexists. split; [reflexivity |].
  unfold smooth, indices. fold n.
  split; [rewrite !length_map, length_seq; reflexivity |].
  intros row Hrow. apply in_map_iff in Hrow as [i [<- Hi]].
  apply in_map_iff in Hi as [i' [<- Hi']]. apply in_seq in Hi'.
  split; [rewrite !length_map, length_seq; reflexivity |].
  intros v Hv. apply in_map_iff in Hv as [j [<- Hj]].
  apply in_map_iff in Hj as [j' [<- Hj']]. apply in_seq in Hj'.
  rewrite smoothCell_mean.
  set (cells := neighbourhood size (Z.of_nat i') (Z.of_nat j')).
  assert (Hself : In (Z.of_nat i', Z.of_nat j') cells)
    by (apply neighbourhood_self; unfold n in *; lia).
  assert (Hlen : 0 < INR (List.length cells)).
  { apply lt_0_INR. destruct cells; [contradiction | simpl; lia]. }
  assert (Hsum : Rabs (cellSum grid cells)
                 <= INR (List.length cells) * (ra * 1.25)).
  { apply cellSum_bound. intros p Hp.
    apply neighbourhood_inside in Hp as [Hp1 [Hp2 _]].
    rewrite Hgrid. apply raw_cell_bound; unfold n; lia || lra. }
  unfold Rdiv. rewrite Rabs_mult, Rabs_inv.
  rewrite (Rabs_right (INR (List.length cells))) by lra.
  apply (Rmult_le_reg_r (INR (List.length cells))); [exact Hlen |].
  rewrite Rmult_assoc, Rinv_l by lra. lra.
Qed.

End BoundedDraws.

(** X13 with every draw equal to 0.75. *)
Lemma surface_profile_bounded_witness :
  Forall (fun p => Rabs (Point.y p) <= 2.5 * 0.8)
    (fst (generateSurfaceProfile (fun _ => 0.75) 0 0.8 200)).
Proof.
  apply Forall_forall.
  apply (surface_profile_bounded (fun _ => 0.75)).
  - intro k. lra.
  - lra.
Defined.

(** X14 for the grid of size 50 of the application. *)
Lemma height_grid_shape_and_range_witness :
  exists out,
    generateSurfaceProfile3D (fun _ => 0.75) 0 0.8 50 = (out, 2500%nat)
    /\ List.length out = 50%nat.
Proof.
  destruct (height_grid_shape_and_range (fun _ => 0.75)
              (fun k => conj (ltac:(lra) : 0 <= 0.75) (ltac:(lra) : 0.75 < 1))
              0 0.8 50) as [out [Hcall [Hlen _]]].
  - lia.
  - lra.
  - exists out. split; [exact Hcall | exact Hlen].
Defined.

(** ** The points handed to the chart *)

Lemma filter_index_all {A : Type} (keep : nat -> bool) (l : list A) :
  (forall i, keep i = true) ->
  forall i, Array_filter_index keep i l = l.
Proof.
  intro Hall. induction l as [| u l IH]; intro i; simpl.
  - reflexivity.
  - rewrite Hall, IH. reflexivity.
Qed.

Section Multiples.

Variable f : nat.
Hypothesis f_pos : (0 < f)%nat.

(** The number of multiples of [f] below [s]. *)
Lemma multiples_step (s : nat) :
  ((S s + f - 1) / f
   = (s + f - 1) / f + (if (s mod f =? 0)%nat then 1 else 0))%nat.
Proof.
  pose proof (Nat.div_mod_eq s f) as Hs.
  pose proof (Nat.mod_upper_bound s f ltac:(lia)) as Hr.
  set (q := (s / f)%nat) in *. set (r := (s mod f)%nat) in *.
  destruct (Nat.eqb_spec r 0) as [Hz | Hnz].
  - rewrite <- (Nat.div_unique (S s + f - 1) f (S q) 0) by lia.
    rewrite <- (Nat.div_unique (s + f - 1) f q (f - 1)) by lia.
    lia.
  - rewrite <- (Nat.div_unique (S s + f - 1) f (S q) r) by lia.
    rewrite <- (Nat.div_unique (s + f - 1) f (S q) (r - 1)) by lia.
    lia.
Qed.

Lemma multiples_cover (s : nat) : (s <= (s + f - 1) / f * f)%nat.
Proof.
  pose proof (Nat.div_mod_eq (s + f - 1) f) as Hs.
  pose proof (Nat.mod_upper_bound (s + f - 1) f ltac:(lia)) as Hr.
  nia.
Qed.

Lemma filter_index_length {A : Type} (l : list A) :
  forall s,
    (List.length
       (Array_filter_index (fun i => (i mod f =? 0)%nat) s l)
     + (s + f - 1) / f
     = (s + List.length l + f - 1) / f)%nat.
Proof.
  induction l as [| u l IH]; intro s.
  - simpl. rewrite Nat.add_0_r. reflexivity.
  - cbn [Array_filter_index List.length].
    replace (s + S (List.length l))%nat with (S s + List.length l)%nat by lia.
    rewrite <- IH, multiples_step.
    destruct (s mod f =? 0)%nat; simpl; lia.
Qed.

Lemma filter_index_nth {A : Type} (l : list A) :
  forall s k,
    nth_error (Array_filter_index (fun i => (i mod f =? 0)%nat) s l) k
    = nth_error l (((s + f - 1) / f + k) * f - s).
Proof.
  induction l as [| u l IH]; intros s k.
  - simpl. rewrite !nth_error_nil. reflexivity.
  - cbn [Array_filter_index].
    pose proof (multiples_step s) as Hstep.
    pose proof (multiples_cover (S s)) as Hcover.
    destruct (Nat.eqb_spec (s mod f) 0) as [Hz | Hnz].
    + assert (Hs : ((s + f - 1) / f * f = s)%nat).
      { pose proof (Nat.div_mod_eq s f) as Hdm. rewrite Hz in Hdm.
        rewrite <- (Nat.div_unique (s + f - 1) f (s / f) (f - 1)) by lia.
        lia. }
      destruct k as [| k].
      * replace (((s + f - 1) / f + 0) * f - s)%nat with 0%nat by lia.
        reflexivity.
      * cbn [nth_error]. rewrite IH.
        replace (((s + f - 1) / f + S k) * f - s)%nat
          with (S (((S s + f - 1) / f + k) * f - S s))%nat by nia.
        reflexivity.
    + rewrite IH.
      replace (((s + f - 1) / f + k) * f - s)%nat
        with (S (((S s + f - 1) / f + k) * f - S s))%nat by nia.
      reflexivity.
Qed.

End Multiples.

Lemma chartData_nth (fullScattering : list ScatteringData) (k : nat) :
  nth_error (chartData fullScattering) k
  = nth_error fullScattering
      (k * Nat.max 1 (List.length fullScattering / 600)).
Proof.
  unfold chartData. cbv zeta.
  remember (Nat.max 1 (List.length fullScattering / 600)) as sampleFactor.
  assert (Hpos : (0 < sampleFactor)%nat) by lia.
  rewrite (filter_index_nth sampleFactor Hpos).
  rewrite (Nat.div_small (0 + sampleFactor - 1) sampleFactor) by lia.
  f_equal. lia.
Qed.

Lemma chartData_length (fullScattering : list ScatteringData) :
  let n := List.length fullScattering in
  let sampleFactor := Nat.max 1 (n / 600) in
  List.length (chartData fullScattering)
  = ((n + sampleFactor - 1) / sampleFactor)%nat.
Proof.
  cbv zeta. unfold chartData. cbv zeta.
  remember (Nat.max 1 (List.length fullScattering / 600)) as sampleFactor.
  assert (Hpos : (0 < sampleFactor)%nat) by lia.
  pose proof (filter_index_length sampleFactor Hpos fullScattering 0) as Hlen.
  rewrite (Nat.div_small (0 + sampleFactor - 1) sampleFactor) in Hlen by lia.
  rewrite Nat.add_0_r, Nat.add_0_l in Hlen. exact Hlen.
Qed.

(** X15: [chartData] keeps the samples whose index is a multiple of
    [sampleFactor = max(1, floor(length / 600))], in order.  An array
    of fewer than 1200 samples is passed on unchanged; the result never
    has 1200 points or more, and it has at least 600 when the array
    has. *)
Theorem chart_downsampling (fullScattering : list ScatteringData) :
  let n := List.length fullScattering in
  let sampleFactor := Nat.max 1 (n / 600) in
  (forall k,
      nth_error (chartData fullScattering) k
      = nth_error fullScattering (k * sampleFactor))
  /\ List.length (chartData fullScattering)
     = ((n + sampleFactor - 1) / sampleFactor)%nat
  /\ ((n < 1200)%nat -> chartData fullScattering = fullScattering)
  /\ (List.length (chartData fullScattering) < 1200)%nat
  /\ ((600 <= n)%nat -> (600 <= List.length (chartData fullScattering))%nat).
Proof.
  cbv zeta.
  pose proof (chartData_length fullScattering) as Hlen. cbv zeta in Hlen.
  split; [intro k; apply chartData_nth |].
  split; [exact Hlen |].
  rewrite Hlen. clear Hlen. unfold chartData. cbv zeta.
  remember (List.length fullScattering) as n eqn:Hn.
  remember (Nat.max 1 (n / 600)) as sampleFactor eqn:Hf.
  pose proof (Nat.div_mod_eq n 600) as Hdiv.
  pose proof (Nat.mod_upper_bound n 600 ltac:(lia)) as Hmod.
  split; [| split].
  - intro Hsmall. assert (Hone : sampleFactor = 1%nat) by lia.
    rewrite Hone. apply filter_index_all. intro i.
    rewrite Nat.mod_1_r. reflexivity.
  - apply Nat.Div0.div_lt_upper_bound. lia.
  - intro Hbig. apply Nat.div_le_lower_bound; lia.
Qed.

(** X15 on an array of three samples. *)
Lemma chart_downsampling_witness :
  let data := [mkScatteringData 0 1; mkScatteringData 1 0.5;
               mkScatteringData 2 0.25] in
  chartData data = data.
Proof.
  cbv zeta.
  destruct (chart_downsampling
              [mkScatteringData 0 1; mkScatteringData 1 0.5;
               mkScatteringData 2 0.25]) as [_ [_ [Hsame _]]].
  apply Hsame. simpl. lia.
Defined.

(** ** The roughness typed in nanometres *)

(** X17: a roughness typed in nanometres is stored in micrometres
    clamped to [0.000001, 3.2]: a value from 0.001 nm to 3200 nm is
    stored as it is, a smaller one as 0.000001, a larger one as 3.2; the
    other parameters are kept, and an entry that is not a number
    changes nothing. *)
Theorem ra_input_clamped (prev : SurfaceParameters.t) :
  handleRaInputChange None prev = prev
  /\ forall valNm,
       let next := handleRaInputChange (Some valNm) prev in
       raMinUm <= SurfaceParameters.ra next <= raMaxUm
       /\ (0.001 <= valNm <= 3200 ->
           SurfaceParameters.ra next = valNm / 1000)
       /\ (valNm <= 0.001 -> SurfaceParameters.ra next = raMinUm)
       /\ (3200 <= valNm -> SurfaceParameters.ra next = raMaxUm)
       /\ handleRaInputChange (Some (1000 * SurfaceParameters.ra next)) next
          = next
       /\ SurfaceParameters.material next = SurfaceParameters.material prev
       /\ SurfaceParameters.wavelength next
          = SurfaceParameters.wavelength prev
       /\ SurfaceParameters.incidentAngle next
          = SurfaceParameters.incidentAngle prev
       /\ SurfaceParameters.modelType next
          = SurfaceParameters.modelType prev
       /\ SurfaceParameters.reflectivity next
          = SurfaceParameters.reflectivity prev
       /\ SurfaceParameters.slopeFactor next
          = SurfaceParameters.slopeFactor prev.
Proof.
  split; [reflexivity |]. intro valNm. cbv zeta.
  unfold handleRaInputChange, raMinUm, raMaxUm.
  cbn [SurfaceParameters.ra SurfaceParameters.material
       SurfaceParameters.wavelength SurfaceParameters.incidentAngle
       SurfaceParameters.modelType SurfaceParameters.reflectivity
       SurfaceParameters.slopeFactor].
  set (stored := Rmin (Rmax (valNm / 1000) 0.000001) 3.2).
  assert (Hrange : 0.000001 <= stored <= 3.2).
  { unfold stored, Rmin, Rmax.
    destruct (Rle_dec (valNm / 1000) 0.000001);
      destruct (Rle_dec _ 3.2); lra. }
  split; [exact Hrange |].
  split; [| split; [| split; [| split]]].
  - intro H. unfold stored, Rmin, Rmax.
    destruct (Rle_dec (valNm / 1000) 0.000001);
      destruct (Rle_dec _ 3.2); lra.
  - intro H. unfold stored, Rmin, Rmax.
    destruct (Rle_dec (valNm / 1000) 0.000001);
      destruct (Rle_dec _ 3.2); lra.
  - intro H. unfold stored, Rmin, Rmax.
    destruct (Rle_dec (valNm / 1000) 0.000001);
      destruct (Rle_dec _ 3.2); lra.
  - f_equal.
    replace (1000 * stored / 1000) with stored by lra.
    unfold Rmin, Rmax.
    destruct (Rle_dec stored 0.000001);
      destruct (Rle_dec _ 3.2); lra.
  - repeat split.
Qed.

(** X17 for an entry of 800 nm. *)
Lemma ra_input_clamped_witness :
  SurfaceParameters.ra
    (handleRaInputChange (Some 800)
       (SurfaceParameters.mk "Aluminum Alloy" 0.8 0.5 0 "Auto" 0.9 1))
  = 800 / 1000.
Proof.
  destruct (ra_input_clamped
              (SurfaceParameters.mk "Aluminum Alloy" 0.8 0.5 0 "Auto" 0.9 1))
    as [_ H].
  destruct (H 800) as [_ [Hkeep _]]. apply Hkeep. lra.
Defined.

(** ** The heights written to the mesh *)

Open Scope list_scope.

Lemma setY_middle (pre post : list R) (old y : R) :
  setY (List.length pre) y (pre ++ old :: post) = pre ++ y :: post.
Proof.
  induction pre as [| v pre IH]; simpl; [reflexivity |].
  rewrite IH. reflexivity.
Qed.

(** Writing [f 0, f 1, ..] from the index [length pre] on replaces the
    block that was there. *)
Lemma write_block (old : list R) :
  forall (f : nat -> R) (pre post : list R),
    fold_left (fun pos j => setY (List.length pre + j) (f j) pos)
      (seq 0 (List.length old)) (pre ++ old ++ post)
    = pre ++ map f (seq 0 (List.length old)) ++ post.
Proof.
  induction old as [| o old IH]; intros f pre post; [reflexivity |].
  cbn [List.length seq fold_left map app].
  rewrite Nat.add_0_r, setY_middle.
  rewrite <- seq_shift, map_map.
  replace (pre ++ f O :: old ++ post) with ((pre ++ [f O]) ++ old ++ post)
    by (rewrite <- app_assoc; reflexivity).
  replace (pre ++ f O :: map (fun j => f (S j)) (seq 0 (List.length old)) ++ post)
    with ((pre ++ [f O])
          ++ map (fun j => f (S j)) (seq 0 (List.length old)) ++ post)
    by (rewrite <- app_assoc; reflexivity).
  rewrite <- (IH (fun j => f (S j)) (pre ++ [f O]) post).
  clear IH. generalize ((pre ++ [f O]) ++ old ++ post) as pos.
  generalize (seq 0 (List.length old)) as js.
  induction js as [| j js IHjs]; intro pos; [reflexivity |].
  cbn [map fold_left]. rewrite IHjs. do 2 f_equal.
  rewrite length_app. simpl. lia.
Qed.

Lemma updateRow_block (heightMap : list (list R)) (size : nat) (scale : R)
  (i : nat) (pre old post : list R) :
  List.length pre = (i * size)%nat -> List.length old = size ->
  List.length (nth i heightMap []) = size ->
  updateRow heightMap size scale i (pre ++ old ++ post)
  = pre ++ map (fun h => h * scale) (nth i heightMap []) ++ post.
Proof.
  intros Hpre Hold Hrow. unfold updateRow. cbv zeta.
  rewrite <- Hpre, <- Hold.
  rewrite (write_block old
             (fun j => nth j (nth i heightMap []) 0 * scale) pre post).
  do 2 f_equal. rewrite Hold, <- Hrow.
  clear. generalize (nth i heightMap []) as row. intro row.
  induction row as [| h row IH]; [reflexivity |].
  cbn [List.length seq map nth]. f_equal.
  rewrite <- seq_shift, map_map. exact IH.
Qed.

Lemma skipn_nth_cons {A : Type} (d : A) (l : list A) :
  forall i, (i < List.length l)%nat ->
            skipn i l = nth i l d :: skipn (S i) l.
Proof.
  induction l as [| u l IH]; intros i Hi; [simpl in Hi; lia |].
  destruct i as [| i]; [reflexivity |].
  cbn [skipn nth]. apply IH. simpl in Hi. lia.
Qed.

Lemma updateRows_blocks (heightMap : list (list R)) (scale : R) :
  let size := List.length heightMap in
  (forall row, In row heightMap -> List.length row = size) ->
  forall (m i : nat) (pre rest : list R),
    (i + m <= size)%nat ->
    List.length pre = (i * size)%nat ->
    List.length rest = (m * size)%nat ->
    fold_left (fun pos i' => updateRow heightMap size scale i' pos)
      (seq i m) (pre ++ rest)
    = pre ++ map (fun h => h * scale)
               (List.concat (firstn m (skipn i heightMap))).
Proof.
  intros size Hrows. induction m as [| m IH]; intros i pre rest Him Hpre Hrest.
  - destruct rest; [reflexivity | simpl in Hrest; lia].
  - cbn [seq fold_left].
    assert (Hi : (i < List.length heightMap)%nat) by (fold size; lia).
    rewrite <- (firstn_skipn size rest).
    rewrite updateRow_block.
    + rewrite app_assoc, IH.
      * rewrite (skipn_nth_cons [] heightMap i Hi).
        cbn [firstn List.concat]. rewrite map_app, app_assoc. reflexivity.
      * lia.
      * rewrite length_app, length_map, Hpre.
        rewrite (Hrows (nth i heightMap [])) by (apply nth_In; exact Hi).
        lia.
      * rewrite length_skipn, Hrest. simpl. lia.
    + exact Hpre.
    + rewrite length_firstn, Hrest. simpl. lia.
    + apply Hrows, nth_In. exact Hi.
Qed.

(** X18: the height update of the mesh does nothing for an empty
    height map; for a square height map and a buffer with one vertex
    per cell it writes every vertex once, row after row: the buffer
    becomes the rows of the height map one after the other, each height
    multiplied by the scale, which is 1000000 below [ra = 0.001], 10000
    below [ra = 0.1] and 50 otherwise. *)
Theorem mesh_heights_row_major (heightMap : list (list R)) (ra : R)
  (position : list R) :
  let size := List.length heightMap in
  (size = O -> updateHeights heightMap ra position = position)
  /\ ((forall row, In row heightMap -> List.length row = size) ->
      List.length position = (size * size)%nat ->
      updateHeights heightMap ra position
      = map (fun h => h * heightScale ra) (List.concat heightMap))
  /\ (ra < 0.001 -> heightScale ra = 1000000)
  /\ (0.001 <= ra < 0.1 -> heightScale ra = 10000)
  /\ (0.1 <= ra -> heightScale ra = 50).
Proof.
  cbv zeta. split; [| split; [| split; [| split]]].
  - intro Hsize. unfold updateHeights. cbv zeta. rewrite Hsize. reflexivity.
  - intros Hrows Hlen. unfold updateHeights. cbv zeta.
    destruct (Nat.eqb_spec (List.length heightMap) 0) as [Hz | Hnz].
    + destruct heightMap; [| discriminate]. simpl in Hlen.
      destruct position; [reflexivity | discriminate].
    + pose proof (updateRows_blocks heightMap (heightScale ra) Hrows
                    (List.length heightMap) 0 [] position) as H.
      cbv zeta in H. rewrite skipn_O, firstn_all in H.
      apply H; [lia | reflexivity | exact Hlen].
  - intro H. unfold heightScale.
    destruct (Rlt_dec ra 0.001); [reflexivity | lra].
  - intro H. unfold heightScale.
    destruct (Rlt_dec ra 0.001); [lra |].
    destruct (Rlt_dec ra 0.1); [reflexivity | lra].
  - intro H. unfold heightScale.
    destruct (Rlt_dec ra 0.001); [lra |].
    destruct (Rlt_dec ra 0.1); [lra | reflexivity].
Qed.

(** X18 on a height map of size 2. *)
Lemma mesh_heights_row_major_witness :
  updateHeights [[1; 2]; [3; 4]] 0.8 [0; 0; 0; 0]
  = [1 * heightScale 0.8; 2 * heightScale 0.8;
     3 * heightScale 0.8; 4 * heightScale 0.8].
Proof.
  destruct (mesh_heights_row_major [[1; 2]; [3; 4]] 0.8 [0; 0; 0; 0])
    as [_ [H _]].
  apply H.
  - intros row [<- | [<- | []]]; reflexivity.
  - reflexivity.
Defined.

(** ** Degenerate wavelength and roughness *)

Lemma sweep_ext (body body' : R -> ScatteringData) (step : R) :
  (forall a, body a = body' a) ->
  forall fuel a, sweep fuel body step a = sweep fuel body' step a.
Proof.
  intros Hext fuel. induction fuel as [| fuel IH]; intro a; simpl;
    destruct (Rle_dec a 90); try reflexivity.
  rewrite IH, Hext. reflexivity.
Qed.

Lemma gParameter_short_wavelength (ra lambda thetaInc : R) :
  lambda <= 0.0001 ->
  gParameter ra lambda thetaInc = gParameter ra 0.0001 thetaInc.
Proof.
  intro Hl. unfold gParameter. cbv zeta.
  rewrite (Rmax_left 0.0001 lambda), (Rmax_left 0.0001 0.0001) by lra.
  reflexivity.
Qed.

(** X19: a wavelength of 0.0001 or less, zero and negative values
    included, gives the regime parameter of the wavelength 0.0001; and
    when the active model is not Rayleigh-Rice, whose lobe width also
    reads the wavelength, the whole call returns what it returns for
    the wavelength 0.0001. *)
Theorem short_wavelength_saturates (fuel : nat) (ra lambda thetaInc : R)
  (modelType : string) (step reflectivity slopeFactor : R) :
  lambda <= 0.0001 ->
  gParameter ra lambda thetaInc = gParameter ra 0.0001 thetaInc
  /\ (resolveModel modelType (gParameter ra lambda thetaInc)
      <> "Rayleigh-Rice" ->
      calculateScattering fuel ra lambda thetaInc modelType step
        reflectivity slopeFactor
      = calculateScattering fuel ra 0.0001 thetaInc modelType step
          reflectivity slopeFactor).
Proof.
  intro Hl.
  pose proof (gParameter_short_wavelength ra lambda thetaInc Hl) as Hg.
  split; [exact Hg |]. intro Hmodel.
  unfold calculateScattering, rawData. cbv zeta.
  rewrite <- Hg.
  rewrite (sweep_ext _
             (sample (resolveModel modelType (gParameter ra lambda thetaInc))
                ra 0.0001 thetaInc step slopeFactor
                (gParameter ra lambda thetaInc)));
    [reflexivity |].
  intro a. unfold sample, modelIntensity.
  apply String.eqb_neq in Hmodel. rewrite Hmodel. reflexivity.
Qed.

(** X19 for a wavelength of zero under Harvey-Shack. *)
Lemma short_wavelength_saturates_witness :
  calculateScattering 181 0.8 0 0 "Harvey-Shack" 1 0.9 1
  = calculateScattering 181 0.8 0.0001 0 "Harvey-Shack" 1 0.9 1.
Proof.
  destruct (short_wavelength_saturates 181 0.8 0 0 "Harvey-Shack" 1 0.9 1)
    as [_ H]; [lra |].
  apply H. discriminate.
Defined.




(** ** Order of the regimes *)

Lemma resolveModel_Auto_inv (g : R) :
  (resolveModel "Auto" g = "Rayleigh-Rice" -> g < 0.01)
  /\ (resolveModel "Auto" g = "Beckmann" -> g > 15)
  /\ (resolveModel "Auto" g = "Harvey-Shack" -> 0.01 <= g <= 15).
Proof.
  unfold resolveModel. simpl.
  destruct (Rlt_dec g 0.01); destruct (Rgt_dec g 15);
    repeat split; intros; try discriminate; lra.
Qed.

(** X21: at a given wavelength and incidence the regime parameter does
    not decrease when the roughness grows from [ra1 >= 0] to [ra2], so
    'Auto' moves through Rayleigh-Rice, Harvey-Shack and Beckmann in
    that order: Beckmann at [ra1] gives Beckmann at [ra2], and
    Rayleigh-Rice at [ra2] gives Rayleigh-Rice at [ra1]. *)
Theorem regimes_ordered_by_roughness (ra1 ra2 lambda thetaInc : R) :
  0 <= ra1 <= ra2 ->
  let g1 := gParameter ra1 lambda thetaInc in
  let g2 := gParameter ra2 lambda thetaInc in
  0 <= g1 <= g2
  /\ (resolveModel "Auto" g1 = "Beckmann" ->
      resolveModel "Auto" g2 = "Beckmann")
  /\ (resolveModel "Auto" g2 = "Rayleigh-Rice" ->
      resolveModel "Auto" g1 = "Rayleigh-Rice").
Proof.
  intros Hra. cbv zeta.
  assert (Hg : gParameter ra1 lambda thetaInc
               <= gParameter ra2 lambda thetaInc).
  { rewrite !gParameter_formula.
    set (c := cos (thetaInc * PI / 180) / Rmax 0.0001 lambda).
    replace (4 * PI * (1.25 * ra1) * cos (thetaInc * PI / 180)
             / Rmax 0.0001 lambda)
      with (5 * PI * c * ra1) by (unfold c, Rdiv; ring_simplify; lra).
    replace (4 * PI * (1.25 * ra2) * cos (thetaInc * PI / 180)
             / Rmax 0.0001 lambda)
      with (5 * PI * c * ra2) by (unfold c, Rdiv; ring_simplify; lra).
    pose proof (pow2_ge_0 (5 * PI * c)) as Hsq.
    replace ((5 * PI * c * ra1) ^ 2) with ((5 * PI * c) ^ 2 * (ra1 * ra1))
      by ring.
    replace ((5 * PI * c * ra2) ^ 2) with ((5 * PI * c) ^ 2 * (ra2 * ra2))
      by ring.
    apply Rmult_le_compat_l; [exact Hsq | nra]. }
  split; [split; [apply gParameter_nonneg | exact Hg] |].
  split.
  - intro H. apply resolveModel_Auto_inv in H. apply resolveModel_Auto. lra.
  - intro H. apply resolveModel_Auto_inv in H. apply resolveModel_Auto. lra.
Qed.

(** X21 between the two roughnesses of the boundary scenario. *)
Lemma regimes_ordered_by_roughness_witness :
  gParameter 0.0000005 0.5 0 <= gParameter 3.2 0.5 0.
Proof.
  destruct (regimes_ordered_by_roughness 0.0000005 3.2 0.5 0) as [[_ H] _].
  - lra.
  - exact H.
Defined.

(** ** The counters as narrowest budgets *)

(** In a descending array no choice of samples adds up to more than
    the same number of samples taken from the front. *)
Lemma front_is_largest (sorted : list ScatteringData) :
  StronglySorted descending sorted ->
  forall chosen rest,
    Permutation (chosen ++ rest) sorted ->
    totalIntensity chosen
    <= totalIntensity (firstn (List.length chosen) sorted).
Proof.
  induction 1 as [| top sorted _ IH Hall]; intros chosen rest Hperm.
  - apply Permutation_sym, Permutation_nil in Hperm.
    apply app_eq_nil in Hperm as [-> _]. simpl. lra.
  - destruct chosen as [| c chosen]; [simpl; lra |].
    assert (Hin : In top ((c :: chosen) ++ rest))
      by (apply (Permutation_in _ (Permutation_sym Hperm)); left; reflexivity).
    cbn [List.length firstn].
    rewrite (totalIntensity_cons top).
    apply in_app_or in Hin as [Hin | Hin].
    + apply in_split in Hin as [l1 [l2 Hsplit]].
      rewrite Hsplit in Hperm. rewrite <- app_assoc in Hperm.
      cbn [app] in Hperm.
      apply Permutation_sym, Permutation_cons_app_inv, Permutation_sym in Hperm.
      rewrite app_assoc in Hperm.
      specialize (IH (l1 ++ l2) rest Hperm).
      assert (Hlen : List.length (l1 ++ l2) = List.length chosen).
      { apply (f_equal (@List.length ScatteringData)) in Hsplit.
        rewrite !length_app in *. simpl in Hsplit. lia. }
      rewrite Hlen in IH.
      rewrite Hsplit,
        (totalIntensity_perm _ _ (Permutation_sym (Permutation_middle l1 l2 top))),
        totalIntensity_cons.
      lra.
    + apply in_split in Hin as [r1 [r2 Hsplit]].
      rewrite Hsplit, app_assoc in Hperm.
      apply Permutation_sym, Permutation_cons_app_inv, Permutation_sym in Hperm.
      assert (Hc : intensity top >= intensity c).
      { rewrite Forall_forall in Hall. apply Hall.
        apply (Permutation_in _ Hperm). left. reflexivity. }
      assert (Hperm' : Permutation (chosen ++ c :: r1 ++ r2) sorted).
      { eapply perm_trans; [| exact Hperm].
        rewrite <- app_assoc. cbn [app].
        apply Permutation_sym, Permutation_middle. }
      specialize (IH chosen (c :: r1 ++ r2) Hperm').
      rewrite totalIntensity_cons. lra.
Qed.

Lemma crossing_is_narrowest (data : list ScatteringData) (threshold : R)
  (count : nat) :
  totalIntensity data > 0 -> 0 < threshold ->
  isFirstCrossing (totalIntensity data) (sortDescending data) threshold count ->
  totalIntensity (firstn count (sortDescending data)) / totalIntensity data
  >= threshold
  /\ forall chosen rest,
       Permutation (chosen ++ rest) data ->
       (List.length chosen < count)%nat ->
       totalIntensity chosen / totalIntensity data < threshold.
Proof.
  intros Htotal Hthr [i [-> [Hi [Hreach Hfirst]]]].
  split; [exact Hreach |].
  intros chosen rest Hperm Hlen.
  assert (Hfront :
            totalIntensity chosen
            <= totalIntensity (firstn (List.length chosen) (sortDescending data))).
  { apply (front_is_largest _ (sortDescending_sorted data) chosen rest).
    eapply perm_trans; [exact Hperm | apply sortDescending_perm]. }
  assert (Hinv : 0 < / totalIntensity data)
    by (apply Rinv_0_lt_compat; lra).
  destruct (List.length chosen) as [| j] eqn:Hj.
  - cbn [firstn] in Hfront. change (totalIntensity []) with 0 in Hfront.
    assert (totalIntensity chosen * / totalIntensity data <= 0) by nra.
    unfold Rdiv. lra.
  - specialize (Hfirst j ltac:(lia)). unfold runningSum, Rdiv in *.
    assert (totalIntensity chosen * / totalIntensity data
            <= totalIntensity (firstn (S j) (sortDescending data))
               * / totalIntensity data)
      by (apply Rmult_le_compat_r; lra).
    lra.
Qed.

(** X22: for a positive total each counter is the narrowest budget of
    samples for its share of the energy: the samples of largest
    intensity, counter many of them, hold at least that share of the
    total, and no choice of fewer samples of the distribution does. *)
Theorem energy_counts_are_narrowest (data : list ScatteringData) :
  totalIntensity data > 0 ->
  let total := totalIntensity data in
  let sorted := sortDescending data in
  let c := energyCounts data in
  forall threshold count,
    (threshold = 0.50 /\ count = e50Count c)
    \/ (threshold = 0.90 /\ count = e90Count c)
    \/ (threshold = 0.99 /\ count = e99Count c) ->
    totalIntensity (firstn count sorted) / total >= threshold
    /\ forall chosen rest,
         Permutation (chosen ++ rest) data ->
         (List.length chosen < count)%nat ->
         totalIntensity chosen / total < threshold.
Proof.
  intros Htotal. cbv zeta. intros threshold count Hcase.
  assert (Hne : totalIntensity data <> 0) by lra.
  destruct (energyCounts_order data Hne) as [H50 [H90 [H99 _]]].
  destruct Hcase as [[-> ->] | [[-> ->] | [-> ->]]];
    apply crossing_is_narrowest; try assumption; lra.
Qed.

(** X22 on three samples of intensities 1, 4 and 1. *)
Lemma energy_counts_are_narrowest_witness :
  let data := [mkScatteringData 0 1; mkScatteringData 1 4;
               mkScatteringData 2 1] in
  totalIntensity (firstn (e50Count (energyCounts data)) (sortDescending data))
  / totalIntensity data >= 0.50.
Proof.
  cbv zeta.
  destruct (energy_counts_are_narrowest
              [mkScatteringData 0 1; mkScatteringData 1 4;
               mkScatteringData 2 1])
    with (threshold := 0.50)
         (count := e50Count (energyCounts
                               [mkScatteringData 0 1; mkScatteringData 1 4;
                                mkScatteringData 2 1]))
    as [H _].
  - unfold totalIntensity. simpl. lra.
  - left. split; reflexivity.
  - exact H.
Defined.

(** ** Sizes that are not positive *)

(** X23: a length or a size that is zero or negative gives an empty
    profile or an empty grid, and no draw is made. *)
Theorem nonpositive_sizes_give_nothing (random : nat -> R) (k : nat)
  (ra : R) (size : Z) :
  (size <= 0)%Z ->
  generateSurfaceProfile random k ra size = ([], k)
  /\ generateSurfaceProfile3D random k ra size = ([], k).
Proof.
  intro Hsize.
  unfold generateSurfaceProfile, generateSurfaceProfile3D, smooth, indices.
  cbv zeta. replace (Z.to_nat size) with O by lia. split; reflexivity.
Qed.

(** X23 for a length and a size of -3. *)
Lemma nonpositive_sizes_give_nothing_witness :
  generateSurfaceProfile (fun _ => 0.75) 7 0.8 (-3) = ([], 7%nat).
Proof.
  apply (nonpositive_sizes_give_nothing (fun _ => 0.75) 7 0.8 (-3)). lia.
Defined.

(** ** One refresh of the application *)

(** X24: one refresh of the application makes 2700 draws and yields a
    profile of 200 points, a grid of 50 rows of 50 cells and, for every
    parameter setting, a scattering distribution. *)
Theorem refresh_shapes (random : nat -> R) (k fuel : nat)
  (params : SurfaceParameters.t) :
  (sampleCount SIMULATION_STEP <= fuel)%nat ->
  exists profile profile3D fullScattering,
    updateVisualization random k fuel params
    = (profile, profile3D, Some fullScattering, (k + 2700)%nat)
    /\ List.length profile = 200%nat
    /\ List.length profile3D = 50%nat
    /\ (forall row, In row profile3D -> List.length row = 50%nat).
Proof.
  intro Hfuel. unfold updateVisualization.
  unfold generateSurfaceProfile. cbv zeta.
  destruct (profileLoop_spec random (SurfaceParameters.ra params * 1.25) 0.15
              (Z.to_nat 200) 0%Z 0 k) as [profile [Hloop [Hlen _]]].
  rewrite Hloop.
  unfold generateSurfaceProfile3D. cbv zeta. rewrite fillGrid_spec.
  destruct (calculateScattering_angles fuel
              (SurfaceParameters.ra params)
              (SurfaceParameters.wavelength params)
              (SurfaceParameters.incidentAngle params)
              (SurfaceParameters.modelType params)
              SIMULATION_STEP
              (SurfaceParameters.reflectivity params)
              (SurfaceParameters.slopeFactor params))
    as [data [Hcall Hangles]];
    [unfold SIMULATION_STEP; lra | exact Hfuel |].
  unfold updateScattering. rewrite Hcall.
  eexists. eexists. eexists.
  split; [f_equal; lia |].
  split; [exact Hlen |].
  unfold smooth, indices.
  split; [rewrite !length_map, length_seq; reflexivity |].
  intros row Hrow. apply in_map_iff in Hrow as [i [<- _]].
  rewrite !length_map, length_seq. reflexivity.
Qed.

(** X24 for the initial parameters of the application. *)
Lemma refresh_shapes_witness :
  exists profile profile3D fullScattering,
    updateVisualization (fun _ => 0.75) 0 (sampleCount SIMULATION_STEP)
      (SurfaceParameters.mk "Aluminum Alloy" 0.8 0.5 0 "Auto" 0.9 1)
    = (profile, profile3D, Some fullScattering, 2700%nat).
Proof.
  destruct (refresh_shapes (fun _ => 0.75) 0 (sampleCount SIMULATION_STEP)
              (SurfaceParameters.mk "Aluminum Alloy" 0.8 0.5 0 "Auto" 0.9 1)
              (Nat.le_refl _))
    as [profile [profile3D [full [Hcall _]]]].
  exists profile, profile3D, full. exact Hcall.
Defined.
